(** * QuickQanava: a shallow embedding of [qan::Graph] (src/qanGraph.cpp)

    The development follows the sections of the source file: the object
    model the graph works on, selection management, alignment, stacking
    (z order), the factories and removal operations, and the topology
    walks.

    Conventions.
    - Objects are identified by their address, a [nat]; a nullable pointer
      is an [option nat].  Node and group objects live in one heap (a
      [qan::Group] is a [qan::Node]); visual items live in a second one.
    - [qreal] is modelled by the exact rationals [Q]: the results speak
      about the algorithms, rounding of doubles is not part of the model.
      The two constants of [std::numeric_limits<qreal>] the code uses have
      their exact IEEE-754 binary64 values.
    - Signals ([emit ...]), logging and the user hooks [onNodeInserted] and
      [onNodeRemoved] (empty in this class) have no effect on the state
      and are left out. *)

From Stdlib Require Import QArith Qminmax Lqa Lia.
From stdpp Require Import gmap list.

(* The solvers of stdpp clear hypotheses by name and warn when the name is
   already gone. *)
#[global] Set Warnings "-clear-no-such-hyp".

(** ** Object model *)

(** [qan::Graph::SelectionPolicy]. *)
Inductive SelectionPolicy : Type :=
| NoSelection
| SelectOnClick
| SelectOnCtrlClick.

(** The dynamic class of a visual item, as [qobject_cast] sees it.
    [qan::GroupItem] derives from [qan::NodeItem] ([sendToFront] relies on
    it: a group item passes its [qobject_cast<qan::NodeItem*>] test). *)
Inductive ItemClass : Type :=
| QQuickItemClass
| NodeItemClass
| GroupItemClass.

(** A [QQuickItem] with the members of [qan::NodeItem], [qan::GroupItem]
    and [qan::Selectable] that qanGraph.cpp reads or writes. *)
Record QQuickItem : Type := mkItem {
  itemClass : ItemClass;
  getNode : option nat;           (* qan::NodeItem::getNode() *)
  getGroup : option nat;          (* qan::GroupItem::getGroup() *)
  getSelected : bool;             (* qan::Selectable::getSelected() *)
  getSelectionItem : option nat;  (* qan::Selectable::getSelectionItem() *)
  x : Q;
  width : Q;
  z : Q;
  parentItem : option nat;
  childItems : list nat
}.

(** A [qan::Node] (a [qan::Group] when [isGroup]) with its gtpo adjacency:
    the in and out node lists, the weak reference to its owning group and,
    for a group, its member nodes. *)
Record Node : Type := mkNode {
  isGroup : bool;
  getItem : option nat;
  get_group : option nat;
  get_in_nodes : list nat;
  get_out_nodes : list nat;
  get_nodes : list nat
}.

(** What the code observes of a [QQmlComponent] while it instantiates a
    delegate: its flags before creation, the class of the object
    [beginCreate] returns ([None] for [nullptr]) and the error flag after
    [beginCreate] and after [completeCreate]. *)
Record QQmlComponent : Type := mkComponent {
  isError : bool;
  isReady : bool;
  beginCreate : option ItemClass;
  isErrorAfterBegin : bool;
  isErrorAfterComplete : bool
}.

(** The state of a [qan::Graph]. *)
Record Graph : Type := mkGraph {
  nodes : gmap nat Node;             (* node and group objects *)
  items : gmap nat QQuickItem;       (* visual items *)
  getSelectionPolicy : SelectionPolicy;
  getSelectedNodes : list nat;       (* _selectedNodes *)
  getSelectedGroups : list nat;      (* _selectedGroups *)
  getMaxZ : Q;                       (* _maxZ *)
  getContainerItem : option nat;     (* _containerItem *)
  nodeDelegate : option QQmlComponent;
  selectionDelegate : option QQmlComponent;
  qmlContext : bool                  (* qmlContext(this) != nullptr *)
}.

(** Field updates. *)
Definition with_nodes (ns : gmap nat Node) (g : Graph) : Graph :=
  mkGraph ns (items g) (getSelectionPolicy g)
          (getSelectedNodes g) (getSelectedGroups g) (getMaxZ g)
          (getContainerItem g) (nodeDelegate g) (selectionDelegate g) (qmlContext g).

Definition with_items (its : gmap nat QQuickItem) (g : Graph) : Graph :=
  mkGraph (nodes g) its (getSelectionPolicy g)
          (getSelectedNodes g) (getSelectedGroups g) (getMaxZ g)
          (getContainerItem g) (nodeDelegate g) (selectionDelegate g) (qmlContext g).

Definition with_selectedNodes (l : list nat) (g : Graph) : Graph :=
  mkGraph (nodes g) (items g) (getSelectionPolicy g)
          l (getSelectedGroups g) (getMaxZ g)
          (getContainerItem g) (nodeDelegate g) (selectionDelegate g) (qmlContext g).

Definition with_selectedGroups (l : list nat) (g : Graph) : Graph :=
  mkGraph (nodes g) (items g) (getSelectionPolicy g)
          (getSelectedNodes g) l (getMaxZ g)
          (getContainerItem g) (nodeDelegate g) (selectionDelegate g) (qmlContext g).

(** [setMaxZ]: [_maxZ = maxZ; emit maxZChanged();]. *)
Definition setMaxZ (maxZ : Q) (g : Graph) : Graph :=
  mkGraph (nodes g) (items g) (getSelectionPolicy g)
          (getSelectedNodes g) (getSelectedGroups g) maxZ
          (getContainerItem g) (nodeDelegate g) (selectionDelegate g) (qmlContext g).

Definition set_selected_flag (b : bool) (it : QQuickItem) : QQuickItem :=
  mkItem (itemClass it) (getNode it) (getGroup it) b (getSelectionItem it)
         (x it) (width it) (z it) (parentItem it) (childItems it).

Definition set_selection_item (s : option nat) (it : QQuickItem) : QQuickItem :=
  mkItem (itemClass it) (getNode it) (getGroup it) (getSelected it) s
         (x it) (width it) (z it) (parentItem it) (childItems it).

Definition set_x (v : Q) (it : QQuickItem) : QQuickItem :=
  mkItem (itemClass it) (getNode it) (getGroup it) (getSelected it)
         (getSelectionItem it) v (width it) (z it) (parentItem it) (childItems it).

Definition set_z (v : Q) (it : QQuickItem) : QQuickItem :=
  mkItem (itemClass it) (getNode it) (getGroup it) (getSelected it)
         (getSelectionItem it) (x it) (width it) v (parentItem it) (childItems it).

Definition set_child_items (l : list nat) (it : QQuickItem) : QQuickItem :=
  mkItem (itemClass it) (getNode it) (getGroup it) (getSelected it)
         (getSelectionItem it) (x it) (width it) (z it) (parentItem it) l.

Definition set_item_node (n : option nat) (it : QQuickItem) : QQuickItem :=
  mkItem (itemClass it) n (getGroup it) (getSelected it)
         (getSelectionItem it) (x it) (width it) (z it) (parentItem it) (childItems it).

Definition set_node_item (i : option nat) (n : Node) : Node :=
  mkNode (isGroup n) i (get_group n) (get_in_nodes n) (get_out_nodes n) (get_nodes n).

(** [item->setZ(v)] on the item at address [i]. *)
Definition setZ (i : nat) (v : Q) (g : Graph) : Graph :=
  with_items (alter (set_z v) i (items g)) g.

(** [item->setX(v)]. *)
Definition setX (i : nat) (v : Q) (g : Graph) : Graph :=
  with_items (alter (set_x v) i (items g)) g.

(** [primitive.getItem()] for the node or group object at address [p]:
    the address of its item, [None] for [nullptr]. *)
Definition getItemOf (g : Graph) (p : nat) : option nat :=
  nodes g !! p ≫= getItem.

(** The item object itself, when the primitive has one. *)
Definition itemOf (g : Graph) (p : nat) : option QQuickItem :=
  getItemOf g p ≫= (items g !!.).

(** [qobject_cast<qan::NodeItem*>] and [qobject_cast<qan::GroupItem*>]. *)
Definition isNodeItem (it : QQuickItem) : bool :=
  match itemClass it with
  | NodeItemClass | GroupItemClass => true
  | QQuickItemClass => false
  end.

Definition isGroupItem (it : QQuickItem) : bool :=
  match itemClass it with
  | GroupItemClass => true
  | _ => false
  end.

(** ** Creation of plain visual items *)

(** A default-constructed item of class [c]. *)
Definition newItem (c : ItemClass) : QQuickItem :=
  mkItem c None None false None 0%Q 0%Q 0%Q None [].

Definition set_parent (p : option nat) (it : QQuickItem) : QQuickItem :=
  mkItem (itemClass it) (getNode it) (getGroup it) (getSelected it)
         (getSelectionItem it) (x it) (width it) (z it) p (childItems it).

(** [QQuickItem::setParentItem]: the item leaves the child list of its
    former parent and is appended to the child list of the new one. *)
Definition reparent (i : nat) (p : option nat) (its : gmap nat QQuickItem)
  : gmap nat QQuickItem :=
  match its !! i with
  | None => its
  | Some it =>
      let its1 :=
        match parentItem it with
        | Some old =>
            alter (λ o, set_child_items (filter (λ c, c ≠ i) (childItems o)) o) old its
        | None => its
        end in
      let its2 := alter (set_parent p) i its1 in
      match p with
      | Some new => alter (λ o, set_child_items (childItems o ++ [i]) o) new its2
      | None => its2
      end
  end.

Definition setParentItem (i : nat) (p : option nat) (g : Graph) : Graph :=
  with_items (reparent i p (items g)) g.

(** [Graph::createItemFromComponent]: every failure is caught inside and
    turned into a null result.  The object exists from [beginCreate] on;
    it is deleted again when the component reports an error at that
    point, and it is returned, parented to the container item, only when
    [completeCreate] went through. *)
Definition createItemFromComponent (component : option QQmlComponent) (g : Graph)
  : option nat * Graph :=
  match component with
  | None => (None, g)
  | Some c =>
      if negb (isReady c) then (None, g)
      else if negb (qmlContext g) then (None, g)
      else match beginCreate c with
           | None => (None, g)
           | Some cls =>
               if isErrorAfterBegin c then (None, g)
               else
                 let i := fresh (dom (items g)) in
                 let g1 := with_items (<[i := newItem cls]> (items g)) g in
                 if isErrorAfterComplete c then (None, g1)
                 else (Some i, setParentItem i (getContainerItem g1) g1)
           end
  end.

(** [Graph::createSelectionItem]. *)
Definition createSelectionItem (parent : option nat) (g : Graph) : option nat * Graph :=
  match createItemFromComponent (selectionDelegate g) g with
  | (Some s, g1) =>
      match parent with
      | Some p => (Some s, setZ s 1%Q (setParentItem s (Some p) g1))
      | None => (Some s, g1)
      end
  | (None, g1) => (None, g1)
  end.

(** ** Selection management *)

(** [Qt::KeyboardModifiers] is a bit mask. *)
Definition NoModifier : Z := 0.
Definition ControlModifier : Z := 0x04000000.

(** The two instances of the [Primitive_t] template parameter; the
    instance picks the [addToSelection] overload, hence the vector. *)
Inductive Primitive_t : Type :=
| qan_Node
| qan_Group.

Definition selectedPrimitives (P : Primitive_t) (g : Graph) : list nat :=
  match P with
  | qan_Node => getSelectedNodes g
  | qan_Group => getSelectedGroups g
  end.

Definition with_selectedPrimitives (P : Primitive_t) (l : list nat) (g : Graph) : Graph :=
  match P with
  | qan_Node => with_selectedNodes l g
  | qan_Group => with_selectedGroups l g
  end.

(** [QVector::contains] and [QVector::removeAll] on a vector of pointers. *)
Definition contains (l : list nat) (p : nat) : bool := bool_decide (p ∈ l).

Definition removeAll (p : nat) (l : list nat) : list nat :=
  filter (λ q, q ≠ p) l.

(** The item of a primitive, resolved: [None] when [getItem()] is null. *)
Definition resolveItem (g : Graph) (p : nat) : option (nat * QQuickItem) :=
  i ← getItemOf g p; it ← items g !! i; Some (i, it).

(** [removeFromSelectionImpl]. *)
Definition removeFromSelectionImpl (P : Primitive_t) (p : nat) (g : Graph) : Graph :=
  if contains (selectedPrimitives P g) p
  then with_selectedPrimitives P (removeAll p (selectedPrimitives P g)) g
  else g.

(** [Graph::removeFromSelection] on a [QQuickItem] pointer: the overload
    the items call back when they are deselected. *)
Definition removeFromSelection (item : nat) (g : Graph) : Graph :=
  match items g !! item with
  | None => g
  | Some it =>
      match (if isNodeItem it then getNode it else None) with
      | Some n => with_selectedNodes (removeAll n (getSelectedNodes g)) g
      | None =>
          match (if isGroupItem it then getGroup it else None) with
          | Some gr => with_selectedGroups (removeAll gr (getSelectedGroups g)) g
          | None => g
          end
      end
  end.

(** Modelled from the spec: [qan::Selectable::setSelected] is defined with
    the items, outside qanGraph.cpp.  It records the flag on the item and,
    when the flag is cleared, takes the remove path of the graph (the
    notes in [selectPrimitive] and [setPrimitiveSelected] say so:
    "graph.removeFromSelection() is called from primitive
    qan::Selectable::setSelected()"). *)
Definition setSelected (item : nat) (selected : bool) (g : Graph) : Graph :=
  let g1 := if selected then g else removeFromSelection item g in
  with_items (alter (set_selected_flag selected) item (items g1)) g1.

(** [addToSelectionImpl].  [configureSelectionItem] only restyles the
    decoration and has no counterpart in the state. *)
Definition addToSelectionImpl (P : Primitive_t) (p : nat) (g : Graph) : Graph :=
  if contains (selectedPrimitives P g) p then g
  else
    let g1 := with_selectedPrimitives P (selectedPrimitives P g ++ [p]) g in
    match resolveItem g1 p with
    | None => g1
    | Some (i, it) =>
        let g2 :=
          match getSelectionItem it with
          | None =>
              let '(s, g') := createSelectionItem (Some i) g1 in
              with_items (alter (set_selection_item s) i (items g')) g'
          | Some _ => g1
          end in
        setSelected i true g2
    end.

Definition addToSelection := addToSelectionImpl.

(** One loop of [Graph::clearSelection] over the copy of a vector. *)
Definition deselectAll (copy : list nat) (g : Graph) : Graph :=
  foldl (λ g p, match resolveItem g p with
                | Some (i, _) => setSelected i false g
                | None => g
                end) g copy.

(** [Graph::clearSelection]. *)
Definition clearSelection (g : Graph) : Graph :=
  let selectedNodesCopy := getSelectedNodes g in
  let g1 := with_selectedNodes [] (deselectAll selectedNodesCopy g) in
  let selectedGroupsCopy := getSelectedGroups g1 in
  with_selectedGroups [] (deselectAll selectedGroupsCopy g1).

(** [const bool ctrlPressed = modifiers & Qt::ControlModifier]. *)
Definition ctrlPressed (modifiers : Z) : bool :=
  negb (Z.land modifiers ControlModifier =? 0)%Z.

(** [qan::impl::selectPrimitive]. *)
Definition selectPrimitive (P : Primitive_t) (p : nat) (modifiers : Z) (g : Graph)
  : bool * Graph :=
  match getSelectionPolicy g with
  | NoSelection => (false, g)
  | policy =>
      match resolveItem g p with
      | None => (false, g)
      | Some (i, it) =>
          let '(select, g1) :=
            if getSelected it then
              (false, if ctrlPressed modifiers then setSelected i false g else g)
            else
              match policy with
              | SelectOnClick =>
                  (true, if negb (ctrlPressed modifiers) then clearSelection g else g)
              | SelectOnCtrlClick => (ctrlPressed modifiers, g)
              | NoSelection => (false, g)
              end in
          if select then (true, addToSelection P p g1) else (false, g1)
      end
  end.

(** [qan::impl::setPrimitiveSelected]. *)
Definition setPrimitiveSelected (P : Primitive_t) (p : nat) (selected : bool) (g : Graph)
  : Graph :=
  match resolveItem g p with
  | None => g
  | Some (i, _) =>
      let g1 := setSelected i selected g in
      if selected then addToSelection P p g1 else g1
  end.

(** [Graph::selectNode(qan::Node&, Qt::KeyboardModifiers)]. *)
Definition selectNode (node : nat) (modifiers : Z) (g : Graph) : bool * Graph :=
  selectPrimitive qan_Node node modifiers g.

(** [Graph::selectNode] on a [qan::Node] pointer; the modifiers default
    to [Qt::NoModifier]. *)
Definition selectNode_ptr (node : option nat) (g : Graph) : bool * Graph :=
  match node with
  | Some n => selectNode n NoModifier g
  | None => (false, g)
  end.

(** [Graph::setNodeSelected(qan::Node&, bool)]. *)
Definition setNodeSelected (node : nat) (selected : bool) (g : Graph) : Graph :=
  setPrimitiveSelected qan_Node node selected g.

(** [Graph::setNodeSelected] on a [qan::Node] pointer. *)
Definition setNodeSelected_ptr (node : option nat) (selected : bool) (g : Graph) : Graph :=
  match node with
  | Some n => setPrimitiveSelected qan_Node n selected g
  | None => g
  end.

(** [Graph::selectGroup]. *)
Definition selectGroup (group : nat) (modifiers : Z) (g : Graph) : bool * Graph :=
  selectPrimitive qan_Group group modifiers g.

(** [Graph::getSelectedItems]: the items of the selected nodes, then of
    the selected groups, for those that have one. *)
Definition getSelectedItems (g : Graph) : list nat :=
  omap (λ p, fst <$> resolveItem g p) (getSelectedNodes g)
  ++ omap (λ p, fst <$> resolveItem g p) (getSelectedGroups g).

(** ** Alignment management *)

(** [std::numeric_limits<qreal>::min()]: the smallest positive normal
    double, 2^-1022. *)
Definition qreal_min : Q := 1 # (2 ^ 1022).

(** [std::numeric_limits<qreal>::max()]: (2 - 2^-52) * 2^1023. *)
Definition qreal_max : Q := inject_Z (2 ^ 1024 - 2 ^ 971).

(** [a < b] on [qreal]. *)
Definition Qltb (a b : Q) : bool :=
  match (a ?= b)%Q with
  | Lt => true
  | _ => false
  end.

(** [std::max(a, b)] is [(a < b) ? b : a]; [std::min(a, b)] is
    [(b < a) ? b : a]. *)
Definition std_max (a b : Q) : Q := if Qltb a b then b else a.
Definition std_min (a b : Q) : Q := if Qltb b a then b else a.

(** The first loop of [alignRight]: the running maximum of the right
    edges.  An address without an item object contributes nothing. *)
Definition maxRightOf (items_ : list nat) (g : Graph) : Q :=
  foldl (λ maxRight i,
           match items g !! i with
           | Some it => std_max maxRight (x it + width it)%Q
           | None => maxRight
           end) qreal_min items_.

(** The first loop of [alignLeft]. *)
Definition minLeftOf (items_ : list nat) (g : Graph) : Q :=
  foldl (λ minLeft i,
           match items g !! i with
           | Some it => std_min minLeft (x it)
           | None => minLeft
           end) qreal_max items_.

(** [Graph::alignRight]. *)
Definition alignRight (items_ : list nat) (g : Graph) : Graph :=
  if (length items_ <=? 1)%nat then g
  else
    let maxRight := maxRightOf items_ g in
    foldl (λ g i,
             match items g !! i with
             | Some it => setX i (maxRight - width it)%Q g
             | None => g
             end) g items_.

(** [Graph::alignLeft]. *)
Definition alignLeft (items_ : list nat) (g : Graph) : Graph :=
  if (length items_ <=? 1)%nat then g
  else
    let minLeft := minLeftOf items_ g in
    foldl (λ g i, setX i minLeft g) g items_.

(** [Graph::alignSelectionRight] and [Graph::alignSelectionLeft]. *)
Definition alignSelectionRight (g : Graph) : Graph := alignRight (getSelectedItems g) g.
Definition alignSelectionLeft (g : Graph) : Graph := alignLeft (getSelectedItems g) g.

(** ** Stacking management *)

(** [Graph::nextMaxZ]. *)
Definition nextMaxZ (g : Graph) : Q * Graph :=
  let g1 := setMaxZ (getMaxZ g + 1)%Q g in
  (getMaxZ g1, g1).

(** [Graph::updateMaxZ]. *)
Definition updateMaxZ (z_ : Q) (g : Graph) : Graph :=
  if Qltb (getMaxZ g) z_ then setMaxZ z_ g else g.

(** [Graph::maxChildsZ]. *)
Definition maxChildsZ (item : option nat) (g : Graph) : Q :=
  match item ≫= (items g !!.) with
  | None => 0%Q
  | Some it =>
      let '(maxZ, hasChild) :=
        foldl (λ '(maxZ, hasChild) childItem,
                 match items g !! childItem with
                 | Some c => (std_max maxZ (z c), true)
                 | None => (maxZ, hasChild)
                 end) (qreal_min, false) (childItems it) in
      if hasChild then maxZ else 0%Q
  end.

(** [Graph::findMaxZ]. *)
Definition findMaxZ (g : Graph) : Graph :=
  setMaxZ (maxChildsZ (getContainerItem g) g) g.

(** [qan::Node::getGroup]: the owning group, when the weak reference
    still locks. *)
Definition getGroupOf (g : Graph) (p : nat) : option nat :=
  gr ← (nodes g !! p) ≫= get_group;
  if decide (is_Some (nodes g !! gr)) then Some gr else None.

(** [qan::Group::getGroupItem]: the item of the group, as a group item. *)
Definition getGroupItem (g : Graph) (gr : nat) : option nat :=
  match resolveItem g gr with
  | Some (i, it) => if isGroupItem it then Some i else None
  | None => None
  end.

(** The local lambda [collectGroups_rec] of [sendToFront]: the group item
    itself, then the item of its group's owning group, and so on outwards.
    The C++ recursion has no bound; [fuel] bounds its depth here and
    [None] stands for a recursion that did not end within it. *)
Fixpoint collectGroups_impl (fuel : nat) (g : Graph) (groups : list nat) (groupItem : nat)
  : option (list nat) :=
  match fuel with
  | O => None
  | S fuel' =>
      let groups := groups ++ [groupItem] in
      let parentGroup := ((items g !! groupItem) ≫= getGroup) ≫= getGroupOf g in
      let parentGroupItem := parentGroup ≫= getGroupItem g in
      match parentGroupItem with
      | Some pgi => collectGroups_impl fuel' g groups pgi
      | None => Some groups
      end
  end.

Definition collectGroups_rec (fuel : nat) (g : Graph) (groupItem : nat) : option (list nat) :=
  collectGroups_impl fuel g [] groupItem.

(** The body of the loop over the collected groups in [sendToFront]. *)
Definition raiseGroupItem (graphContainerItem : nat) (g : Graph) (groupItem : nat) : Graph :=
  match items g !! groupItem with
  | None => g
  | Some it =>
      match parentItem it with
      | None => g
      | Some groupParentItem =>
          if decide (groupParentItem = graphContainerItem) then
            let '(z_, g1) := nextMaxZ g in setZ groupItem z_ g1
          else
            let maxZ := maxChildsZ (Some groupParentItem) g in
            setZ groupItem (maxZ + 1)%Q (updateMaxZ (maxZ + 1)%Q g)
      end
  end.

(** [Graph::sendToFront]. *)
Definition sendToFront (fuel : nat) (item : option nat) (g : Graph) : option Graph :=
  match item with
  | None => Some g
  | Some i =>
      match items g !! i with
      | None => Some g
      | Some it =>
          if negb (isNodeItem it) then Some g
          else
            match getContainerItem g with
            | None => Some g
            | Some graphContainerItem =>
                if negb (isGroupItem it) then
                  let '(z_, g1) := nextMaxZ g in Some (setZ i z_ g1)
                else if decide (parentItem it = Some graphContainerItem) then
                  let '(z_, g1) := nextMaxZ g in Some (setZ i z_ g1)
                else
                  groups ← collectGroups_rec fuel g i;
                  Some (foldl (raiseGroupItem graphContainerItem) g groups)
            end
      end
  end.

(** ** The collaborators of the graph *)

(** The exceptions the code names. *)
Inductive Exn : Type :=
| bad_weak_ptr          (* std::bad_weak_ptr *)
| bad_topology_error    (* gtpo::bad_topology_error *)
| qan_Error.            (* qan::Error *)

(** The base class [gtpo::graph<qan::Config>] ([gtpo_graph_t]) is defined
    outside qanGraph.cpp.  Its methods act on the node objects only; each
    returns the objects as it leaves them, with the exception it raised,
    if any. *)
Class gtpo_graph_t : Type := {
  insert_node : nat → Node → gmap nat Node → option Exn * gmap nat Node;
  remove_node : nat → gmap nat Node → option Exn * gmap nat Node;
  remove_group : nat → gmap nat Node → option Exn * gmap nat Node;
  group_node : nat → nat → gmap nat Node → option Exn * gmap nat Node
}.

(** The methods of [qan::GroupItem] that move a node item into and out of
    the visual container of a group; they are defined with the items and
    act on the items only. *)
Class GroupItem_t : Type := {
  groupNodeItem : nat → nat → bool → gmap nat QQuickItem → gmap nat QQuickItem;
  ungroupNodeItem : nat → nat → bool → gmap nat QQuickItem → gmap nat QQuickItem
}.

(** Modelled from the spec: the methods of the gtpo base class; the
    specification describes them through the operations of the topology
    store.  [remove_node]: "removes all edges incident to node first (no
    dangling edges ever observable) ... then destroys it"; removing an
    entity the store does not own is a topology error, "the attempted
    mutation is rejected, prior state is unchanged". *)
Definition detach (n : nat) (obj : Node) : Node :=
  mkNode (isGroup obj) (getItem obj)
         (if decide (get_group obj = Some n) then None else get_group obj)
         (filter (λ m, m ≠ n) (get_in_nodes obj))
         (filter (λ m, m ≠ n) (get_out_nodes obj))
         (filter (λ m, m ≠ n) (get_nodes obj)).

Definition spec_remove_node (n : nat) (ns : gmap nat Node) : option Exn * gmap nat Node :=
  match ns !! n with
  | None => (Some bad_topology_error, ns)
  | Some _ => (None, detach n <$> delete n ns)
  end.

(** Modelled from the spec: [remove_group] "first reparents every member
    Node out of the group (members become un-grouped, preserving their
    own edges) ... then removes it as a Node (cascading edge removal) and
    destroys it". *)
Definition spec_remove_group (gr : nat) (ns : gmap nat Node) : option Exn * gmap nat Node :=
  spec_remove_node gr ns.

(** Modelled from the spec: [insert_node] takes the node into the store,
    "succeeds unconditionally". *)
Definition spec_insert_node (n : nat) (obj : Node) (ns : gmap nat Node)
  : option Exn * gmap nat Node :=
  (None, <[n := obj]> ns).

(** Modelled from the spec: [group_node] "fails if group == node (no
    self-containment) or either is not owned by the Store; otherwise
    detaches node from any prior group and attaches it to group's member
    set". *)
Definition set_group (gr : option nat) (obj : Node) : Node :=
  mkNode (isGroup obj) (getItem obj) gr (get_in_nodes obj) (get_out_nodes obj)
         (get_nodes obj).

Definition set_members (l : list nat) (obj : Node) : Node :=
  mkNode (isGroup obj) (getItem obj) (get_group obj) (get_in_nodes obj)
         (get_out_nodes obj) l.

Definition spec_group_node (n gr : nat) (ns : gmap nat Node) : option Exn * gmap nat Node :=
  match ns !! n, ns !! gr with
  | Some _, Some _ =>
      if decide (n = gr) then (Some bad_topology_error, ns)
      else
        let ns1 := (λ o, set_members (filter (λ m, m ≠ n) (get_nodes o)) o) <$> ns in
        let ns2 := alter (set_group (Some gr)) n ns1 in
        (None, alter (λ o, set_members (get_nodes o ++ [n]) o) gr ns2)
  | _, _ => (Some bad_topology_error, ns)
  end.

Definition spec_gtpo : gtpo_graph_t :=
  {| insert_node := spec_insert_node;
     remove_node := spec_remove_node;
     remove_group := spec_remove_group;
     group_node := spec_group_node |}.

(** Modelled from the spec: the two methods of [qan::GroupItem].  Grouping
    parents the node item to the group item; ungrouping makes it "a
    top-level (or parent-group-level)" item again, a child of the parent
    of the group item. *)
Definition spec_groupItems : GroupItem_t :=
  {| groupNodeItem := λ groupItem nodeItem _ its, reparent nodeItem (Some groupItem) its;
     ungroupNodeItem := λ groupItem nodeItem _ its,
       reparent nodeItem ((its !! groupItem) ≫= parentItem) its |}.

(** [shared_from_this()] succeeds on an object that a [shared_ptr] owns,
    that is on an object of the store, and raises [std::bad_weak_ptr]
    otherwise. *)
Definition shared_from_this (g : Graph) (p : nat) : option Exn :=
  if decide (is_Some (nodes g !! p)) then None else Some bad_weak_ptr.

(** ** Graph factories *)

(** [Graph::createFromComponent] as [insertNode] calls it: a component, a
    style, a node and neither edge nor group.  The node is the caller's
    object [obj] at address [n].  A failure inside is caught and gives a
    null result. *)
Definition createFromComponent (component : option QQmlComponent)
    (node : option (nat * Node)) (g : Graph)
  : option nat * option (nat * Node) * Graph :=
  match component with
  | None => (None, node, g)
  | Some c =>
      if negb (isReady c) then (None, node, g)
      else if negb (qmlContext g) then (None, node, g)
      else match beginCreate c with
           | None => (None, node, g)
           | Some cls =>
               if isErrorAfterBegin c then (None, node, g)
               else
                 let i := fresh (dom (items g)) in
                 let object := newItem cls in
                 let '(node1, object1) :=
                   match node with
                   | Some (n, obj) =>
                       if isNodeItem object
                       then (Some (n, set_node_item (Some i) obj),
                             set_item_node (Some n) object)
                       else (node, object)
                   | None => (node, object)
                   end in
                 let g1 := with_items (<[i := object1]> (items g)) g in
                 if isErrorAfterComplete c then (None, node1, g1)
                 else (Some i, node1, setParentItem i (getContainerItem g1) g1)
           end
  end.

Section Topology.
Context `{gtpo : gtpo_graph_t} `{groupItems : GroupItem_t}.

(** [Graph::insertNode], the overload that takes a [SharedNode], a
    component and a style.  [node] is the shared node, null or an object [obj] at address [n];
    [nodeStyle] is null or a style. *)
Definition insertNode (node : option (nat * Node)) (nodeComponent : option QQmlComponent)
    (nodeStyle : option unit) (g : Graph) : bool * Graph :=
  match node with
  | None => (false, g)
  | Some (n, obj) =>
      let nodeComponent :=
        match nodeComponent with
        | None => nodeDelegate g
        | Some c => Some c
        end in
      match nodeComponent with
      | None => (false, g)
      | Some c =>
          if isError c then (false, g)
          else
            let '(nodeItem, node1, g1) :=
              match nodeStyle with
              | Some _ => createFromComponent (Some c) (Some (n, obj)) g
              | None => (None, Some (n, obj), g)
              end in
            match nodeItem with
            | None => (false, g1)       (* qan::Error, caught *)
            | Some i =>
                let obj1 := match node1 with Some (_, o) => o | None => obj end in
                let g2 := with_items (alter (set_item_node (Some n)) i (items g1)) g1 in
                let obj2 := set_node_item (Some i) obj1 in
                let g3 := setMaxZ (getMaxZ g2 + 1)%Q g2 in
                let g4 := setZ i (getMaxZ g3) g3 in
                match insert_node n obj2 (nodes g4) with
                | (None, ns) => (true, with_nodes ns g4)
                | (Some _, ns) => (false, with_nodes ns g4)
                end
            end
      end
  end.

(** [Graph::removeNode].  Only [std::bad_weak_ptr] is caught; another
    exception of the base class leaves the function. *)
Definition removeNode (node : option nat) (g : Graph) : option Exn * Graph :=
  match node with
  | None => (None, g)
  | Some n =>
      let g1 :=
        if contains (getSelectedNodes g) n
        then with_selectedNodes (removeAll n (getSelectedNodes g)) g
        else g in
      match shared_from_this g1 n with
      | Some _ => (None, g1)
      | None =>
          match remove_node n (nodes g1) with
          | (Some bad_weak_ptr, ns) => (None, with_nodes ns g1)
          | (e, ns) => (e, with_nodes ns g1)
          end
      end
  end.

(** The first loop of [Graph::removeGroup]: the items of the member
    nodes that are still there leave the group item.  [ungroupNodeItem]
    is called with its default second argument. *)
Definition ungroupMembers (group : nat) (g : Graph) : Graph :=
  foldl (λ g node,
           match resolveItem g node, getGroupItem g group with
           | Some (nodeItem, _), Some groupItem =>
               with_items (ungroupNodeItem groupItem nodeItem true (items g)) g
           | _, _ => g
           end)
        g (default [] (get_nodes <$> nodes g !! group)).

(** [Graph::removeGroup].  Nothing is caught here. *)
Definition removeGroup (group : option nat) (g : Graph) : option Exn * Graph :=
  match group with
  | None => (None, g)
  | Some gr =>
      let g1 := ungroupMembers gr g in
      let g2 :=
        if contains (getSelectedNodes g1) gr
        then with_selectedNodes (removeAll gr (getSelectedNodes g1)) g1
        else g1 in
      match shared_from_this g2 gr with
      | Some e => (Some e, g2)
      | None =>
          let '(e, ns) := remove_group gr (nodes g2) in
          (e, with_nodes ns g2)
      end
  end.

(** [Graph::groupNode]. *)
Definition groupNode (group node : option nat) (transform : bool) (g : Graph)
  : bool * Graph :=
  match group, node with
  | Some gr, Some n =>
      if decide (gr = n) then (false, g)
      else
        match shared_from_this g n, shared_from_this g gr with
        | None, None =>
            match group_node n gr (nodes g) with
            | (Some _, ns) => (false, with_nodes ns g)
            | (None, ns) =>
                let g1 := with_nodes ns g in
                match (if decide (getGroupOf g1 n = Some gr) then getGroupItem g1 gr else None),
                      resolveItem g1 n with
                | Some groupItem, Some (nodeItem, _) =>
                    (true, with_items (groupNodeItem groupItem nodeItem transform (items g1)) g1)
                | _, _ => (true, g1)
                end
            end
        | _, _ => (false, g)
        end
  | _, _ => (false, g)
  end.

(** One loop of [Graph::removeSelection]; the loop runs over the vector
    as it is when the loop starts and ends at the first exception that
    leaves [remove]. *)
Fixpoint removeEach (remove : option nat → Graph → option Exn * Graph)
    (l : list nat) (g : Graph) : option Exn * Graph :=
  match l with
  | [] => (None, g)
  | p :: l' =>
      match remove (Some p) g with
      | (None, g1) => removeEach remove l' g1
      | (Some e, g1) => (Some e, g1)
      end
  end.

(** [Graph::removeSelection]. *)
Definition removeSelection (g : Graph) : option Exn * Graph :=
  match removeEach removeNode (getSelectedNodes g) g with
  | (Some e, g1) => (Some e, g1)
  | (None, g1) =>
      match removeEach removeGroup (getSelectedGroups g1) g1 with
      | (Some e, g2) => (Some e, g2)
      | (None, g2) => (None, clearSelection g2)
      end
  end.
End Topology.

(** ** Topology algorithms *)

(** [weak.lock().get()]: the address when the object is still there, a
    null pointer otherwise. *)
Definition lock (g : Graph) (p : nat) : option nat :=
  if decide (is_Some (nodes g !! p)) then Some p else None.

(** The state the walks thread through their calls: the [marks] set and
    the output vector. *)
Definition Walk : Type := gset nat * list nat.

(** A [for] loop whose body is a call that may not return. *)
Definition forEach {A S : Type} (body : A → S → option S) (l : list A) (s : S) : option S :=
  foldl (λ acc a, acc ≫= body a) (Some s) l.

(** [Graph::collectDfsRec].  The C++ function recurses without a bound;
    [fuel] is the depth allowed to the recursion and [None] stands for a
    walk that did not return within it. *)
Fixpoint collectDfsRec (fuel : nat) (g : Graph) (collectGroup : bool)
    (node : option nat) (w : Walk) : option Walk :=
  match fuel with
  | O => None
  | S fuel' =>
      match node with
      | None => Some w
      | Some n =>
          if decide (n ∈ w.1) then Some w
          else
            let w1 : Walk := ({[n]} ∪ w.1, w.2 ++ [n]) in
            match nodes g !! n with
            | None => Some w1
            | Some obj =>
                w2 ← (if collectGroup && isGroup obj
                      then forEach (λ groupNode, collectDfsRec fuel' g collectGroup (lock g groupNode))
                                   (get_nodes obj) w1
                      else Some w1);
                forEach (λ outNode, collectDfsRec fuel' g collectGroup (lock g outNode))
                        (get_out_nodes obj) w2
            end
      end
  end.

(** [Graph::collectDfs(const qan::Node& node, bool collectGroup)], with
    its two local variables [marks] and [childs] as they are when the
    function returns [childs]. *)
Definition collectDfsWalk (fuel : nat) (g : Graph) (node : nat) (collectGroup : bool)
  : option Walk :=
  match nodes g !! node with
  | None => Some (∅, [])
  | Some obj =>
      w1 ← (if collectGroup && isGroup obj
            then forEach (λ groupNode, collectDfsRec fuel g collectGroup (lock g groupNode))
                         (get_nodes obj) (∅, [])
            else Some (∅, []));
      forEach (λ outNode, collectDfsRec fuel g collectGroup (lock g outNode))
              (get_out_nodes obj) w1
  end.

Definition collectDfs (fuel : nat) (g : Graph) (node : nat) (collectGroup : bool)
  : option (list nat) :=
  snd <$> collectDfsWalk fuel g node collectGroup.

(** [Graph::collectAncestorsDfsRec].  The owning group of the node is
    walked whatever [collectGroup] says. *)
Fixpoint collectAncestorsDfsRec (fuel : nat) (g : Graph) (collectGroup : bool)
    (node : option nat) (w : Walk) : option Walk :=
  match fuel with
  | O => None
  | S fuel' =>
      match node with
      | None => Some w
      | Some n =>
          if decide (n ∈ w.1) then Some w
          else
            let w1 : Walk := ({[n]} ∪ w.1, w.2 ++ [n]) in
            match nodes g !! n with
            | None => Some w1
            | Some obj =>
                w2 ← (if collectGroup && isGroup obj
                      then forEach (λ groupNode,
                                      collectAncestorsDfsRec fuel' g collectGroup (lock g groupNode))
                                   (get_nodes obj) w1
                      else Some w1);
                w3 ← collectAncestorsDfsRec fuel' g collectGroup (getGroupOf g n) w2;
                forEach (λ inNode, collectAncestorsDfsRec fuel' g collectGroup (lock g inNode))
                        (get_in_nodes obj) w3
            end
      end
  end.

(** [Graph::collectAncestorsDfs], with its local variables [marks] and
    [parents].  The walk of the owning group of the start node is
    commented out in the source. *)
Definition collectAncestorsDfsWalk (fuel : nat) (g : Graph) (node : nat) (collectGroup : bool)
  : option Walk :=
  match nodes g !! node with
  | None => Some (∅, [])
  | Some obj =>
      w1 ← (if collectGroup && isGroup obj
            then forEach (λ groupNode,
                            collectAncestorsDfsRec fuel g collectGroup (lock g groupNode))
                         (get_nodes obj) (∅, [])
            else Some (∅, []));
      forEach (λ inNode, collectAncestorsDfsRec fuel g collectGroup (lock g inNode))
              (get_in_nodes obj) w1
  end.

Definition collectAncestorsDfs (fuel : nat) (g : Graph) (node : nat) (collectGroup : bool)
  : option (list nat) :=
  snd <$> collectAncestorsDfsWalk fuel g node collectGroup.

(** The depth that is enough for any walk of [g]: one call per node
    object, and one more that finds its node marked or null. *)
Definition walkFuel (g : Graph) : nat := S (size (nodes g)).

(** ** Notions the statements use *)

(** The part of the state a visual update leaves alone. *)
Definition sameTopology (g g' : Graph) : Prop :=
  nodes g' = nodes g ∧ getSelectionPolicy g' = getSelectionPolicy g ∧
  getMaxZ g' = getMaxZ g ∧
  ∀ i, is_Some (items g !! i) → is_Some (items g' !! i).

(** What [removeFromSelection] does for an item, read off its back
    references: the vector it prunes and the address it removes. *)
Definition selectionTarget (it : QQuickItem) : option (Primitive_t * nat) :=
  match (if isNodeItem it then getNode it else None) with
  | Some n => Some (qan_Node, n)
  | None =>
      match (if isGroupItem it then getGroup it else None) with
      | Some gr => Some (qan_Group, gr)
      | None => None
      end
  end.


(** The other instance of the template. *)
Definition otherPrimitive (P : Primitive_t) : Primitive_t :=
  match P with
  | qan_Node => qan_Group
  | qan_Group => qan_Node
  end.

(** The selection state machine in the words of the specification, on
    what a selection query observes: the result, the selection set of the
    entity's kind and the selection set of the other kind. *)
Definition trySelect (policy : SelectionPolicy) (modifier : bool) (entity : nat)
    (selected other : list nat) : bool * list nat * list nat :=
  match policy with
  | NoSelection => (false, selected, other)
  | SelectOnClick =>
      if bool_decide (entity ∈ selected) then
        if modifier then (false, removeAll entity selected, other)
        else (false, selected, other)
      else
        if modifier then (true, selected ++ [entity], other)
        else (true, [entity], [])
  | SelectOnCtrlClick =>
      if bool_decide (entity ∈ selected) then
        if modifier then (false, removeAll entity selected, other)
        else (false, selected, other)
      else
        if modifier then (true, selected ++ [entity], other)
        else (false, selected, other)
  end.

(** ** Example graphs *)

(** A delegate that instantiates node items without error. *)
Definition nodeComponent : QQmlComponent :=
  mkComponent false true (Some NodeItemClass) false false.

(** A graph that selects on click and holds one node, at address 1, that
    has no visual item (as [insertNonVisualNode] leaves it). *)
Definition nonVisualGraph : Graph :=
  mkGraph {[ 1%nat := mkNode false None None [] [] [] ]}
          {[ 100%nat := newItem QQuickItemClass ]}
          SelectOnClick [] [] 0%Q (Some 100%nat) None None true.

(** A graph that selects on click, with container item 100 and three
    objects: node 1 (item 11) at the root, group 3 (item 13) at the root
    and node 2 (item 12) inside group 3. *)
Definition visualGraph : Graph :=
  mkGraph
    {[ 1%nat := mkNode false (Some 11%nat) None [] [] [];
       2%nat := mkNode false (Some 12%nat) (Some 3%nat) [] [] [];
       3%nat := mkNode true (Some 13%nat) None [] [] [2%nat] ]}
    {[ 100%nat := mkItem QQuickItemClass None None false None 0%Q 0%Q 0%Q None
                         [11%nat; 13%nat];
       11%nat := mkItem NodeItemClass (Some 1%nat) None false None 0%Q 10%Q 1%Q
                        (Some 100%nat) [];
       12%nat := mkItem NodeItemClass (Some 2%nat) None false None 0%Q 10%Q 3%Q
                        (Some 13%nat) [];
       13%nat := mkItem GroupItemClass None (Some 3%nat) false None 0%Q 50%Q 2%Q
                        (Some 100%nat) [12%nat] ]}
    SelectOnClick [] [] 3%Q (Some 100%nat) (Some nodeComponent) None true.


(** The z of the item at address [i]. *)
Definition zOf (g : Graph) (i : nat) : option Q := z <$> items g !! i.

(** A graph with nested groups: group 3 (item 13) at the root, group 4
    (item 14) inside group 3, next to node 1 (item 11), and node 2
    (item 12) inside group 4. *)
Definition nestedGraph : Graph :=
  mkGraph
    {[ 1%nat := mkNode false (Some 11%nat) (Some 3%nat) [] [] [];
       2%nat := mkNode false (Some 12%nat) (Some 4%nat) [] [] [];
       3%nat := mkNode true (Some 13%nat) None [] [] [1%nat; 4%nat];
       4%nat := mkNode true (Some 14%nat) (Some 3%nat) [] [] [2%nat] ]}
    {[ 100%nat := mkItem QQuickItemClass None None false None 0%Q 0%Q 0%Q None [13%nat];
       11%nat := mkItem NodeItemClass (Some 1%nat) None false None 0%Q 10%Q 7%Q
                        (Some 13%nat) [];
       12%nat := mkItem NodeItemClass (Some 2%nat) None false None 0%Q 10%Q 1%Q
                        (Some 14%nat) [];
       13%nat := mkItem GroupItemClass None (Some 3%nat) false None 0%Q 90%Q 2%Q
                        (Some 100%nat) [11%nat; 14%nat];
       14%nat := mkItem GroupItemClass None (Some 4%nat) false None 0%Q 50%Q 3%Q
                        (Some 13%nat) [12%nat] ]}
    SelectOnClick [] [] 5%Q (Some 100%nat) (Some nodeComponent) None true.

(** A scene for the alignment examples: items 0, 1, ... with the given
    (x, width), all children of no one. *)
Definition boundsGraph (bounds : list (Q * Q)) : Graph :=
  mkGraph ∅
    (list_to_map (imap (λ i b, (i, mkItem NodeItemClass None None false None
                                         b.1 b.2 0%Q None [])) bounds))
    SelectOnClick [] [] 0%Q None None None true.

(** The x and the right edge of the item at address [i]. *)
Definition xOf (g : Graph) (i : nat) : option Q := x <$> items g !! i.
Definition rightOf (g : Graph) (i : nat) : option Q :=
  (λ it, (x it + width it)%Q) <$> items g !! i.

(** The two walks share their shape: a node that is not marked yet is
    marked and appended, then its targets are walked in order.  [targets]
    lists, for a node, the pointers the walk follows from it. *)
Fixpoint walk (targets : nat → list (option nat)) (fuel : nat) (node : option nat) (w : Walk)
  : option Walk :=
  match fuel with
  | O => None
  | S fuel' =>
      match node with
      | None => Some w
      | Some n =>
          if decide (n ∈ w.1) then Some w
          else forEach (walk targets fuel') (targets n) ({[n]} ∪ w.1, w.2 ++ [n])
      end
  end.

(** The pointers [collectDfsRec] follows from the node at [n]: the
    members of a group when asked to, then the out nodes. *)
Definition descendantTargets (g : Graph) (collectGroup : bool) (n : nat) : list (option nat) :=
  match nodes g !! n with
  | None => []
  | Some obj =>
      (if collectGroup && isGroup obj then lock g <$> get_nodes obj else [])
      ++ (lock g <$> get_out_nodes obj)
  end.

(** The pointers [collectAncestorsDfsRec] follows: the members of a group
    when asked to, the owning group, then the in nodes. *)
Definition ancestorTargets (g : Graph) (collectGroup : bool) (n : nat) : list (option nat) :=
  match nodes g !! n with
  | None => []
  | Some obj =>
      (if collectGroup && isGroup obj then lock g <$> get_nodes obj else [])
      ++ [getGroupOf g n]
      ++ (lock g <$> get_in_nodes obj)
  end.

(** The targets [collectAncestorsDfs] starts from: those of the
    recursive function without the owning group. *)
Definition ancestorStartTargets (g : Graph) (collectGroup : bool) (n : nat)
  : list (option nat) :=
  match nodes g !! n with
  | None => []
  | Some obj =>
      (if collectGroup && isGroup obj then lock g <$> get_nodes obj else [])
      ++ (lock g <$> get_in_nodes obj)
  end.

(** A graph with the cycle A -> B -> A, A at address 1 and B at 2. *)
Definition cycleGraph : Graph :=
  mkGraph
    {[ 1%nat := mkNode false None None [2%nat] [2%nat] [];
       2%nat := mkNode false None None [1%nat] [1%nat] [] ]}
    ∅ SelectOnClick [] [] 0%Q None None None true.

(** What a walk has done between the state [w] it started in and the
    state [w'] it returned in: it appended some nodes [new] to the
    output, each of them once and none of them marked before, it marked
    exactly those, and every target of each of them is marked. *)
Definition walked (targets : nat → list (option nat)) (w w' : Walk) : Prop :=
  ∃ new : list nat,
    w'.2 = w.2 ++ new
    ∧ w'.1 = w.1 ∪ list_to_set new
    ∧ NoDup new
    ∧ (∀ x, x ∈ new → x ∉ w.1)
    ∧ (∀ x m, x ∈ new → Some m ∈ targets x → m ∈ w'.1).

(** ** Further functions of the graph *)

(** *** Selection policy *)

Definition with_selectionPolicy (policy : SelectionPolicy) (g : Graph) : Graph :=
  mkGraph (nodes g) (items g) policy
          (getSelectedNodes g) (getSelectedGroups g) (getMaxZ g)
          (getContainerItem g) (nodeDelegate g) (selectionDelegate g) (qmlContext g).

(** [selectionPolicy == _selectionPolicy] on the enumeration. *)
Definition samePolicy (a b : SelectionPolicy) : bool :=
  match a, b with
  | NoSelection, NoSelection => true
  | SelectOnClick, SelectOnClick => true
  | SelectOnCtrlClick, SelectOnCtrlClick => true
  | _, _ => false
  end.

(** [Graph::setSelectionPolicy]. *)
Definition setSelectionPolicy (selectionPolicy : SelectionPolicy) (g : Graph) : Graph :=
  if samePolicy selectionPolicy (getSelectionPolicy g) then g
  else
    let g1 := with_selectionPolicy selectionPolicy g in
    if samePolicy selectionPolicy NoSelection then clearSelection g1 else g1.

(** [Graph::removeFromSelection] on a node and on a group. *)
Definition removeNodeFromSelection (node : nat) (g : Graph) : Graph :=
  removeFromSelectionImpl qan_Node node g.
Definition removeGroupFromSelection (group : nat) (g : Graph) : Graph :=
  removeFromSelectionImpl qan_Group group g.

(** [Graph::setContainerItem]. *)
Definition setContainerItem (containerItem : option nat) (g : Graph) : Graph :=
  match containerItem with
  | None => g
  | Some c =>
      if decide (Some c = getContainerItem g) then g
      else mkGraph (nodes g) (items g) (getSelectionPolicy g)
                   (getSelectedNodes g) (getSelectedGroups g) (getMaxZ g)
                   (Some c) (nodeDelegate g) (selectionDelegate g) (qmlContext g)
  end.

(** *** Alignment on the horizontal centre *)

(** The first loop of [alignHorizontalCenter]: the running maximum of the
    right edges and the running minimum of the left edges. *)
Definition extentOf (items_ : list nat) (g : Graph) : Q * Q :=
  foldl (λ '(maxRight, minLeft) i,
           match items g !! i with
           | Some it => (std_max maxRight (x it + width it)%Q, std_min minLeft (x it))
           | None => (maxRight, minLeft)
           end) (qreal_min, qreal_max) items_.

(** [Graph::alignHorizontalCenter]. *)
Definition alignHorizontalCenter (items_ : list nat) (g : Graph) : Graph :=
  if (length items_ <=? 1)%nat then g
  else
    let '(maxRight, minLeft) := extentOf items_ g in
    let center := (minLeft + (maxRight - minLeft) / 2)%Q in
    foldl (λ g i,
             match items g !! i with
             | Some it => setX i (center - width it / 2)%Q g
             | None => g
             end) g items_.

(** [Graph::alignSelectionHorizontalCenter]. *)
Definition alignSelectionHorizontalCenter (g : Graph) : Graph :=
  alignHorizontalCenter (getSelectedItems g) g.


(** *** Ungrouping *)

(** The collaborators of [ungroupNode] outside qanGraph.cpp:
    [gtpo::graph::ungroup_node], which acts on the node objects and may
    raise, and [qan::GroupItem::ungroupNodeItem], which is handed the
    item of the node as it is, null or not. *)
Class ungroup_t : Type := {
  ungroup_node : nat → nat → gmap nat Node → option Exn * gmap nat Node;
  ungroupNodeItem_ptr : nat → option nat → bool → gmap nat QQuickItem → gmap nat QQuickItem
}.

(** [Graph::ungroupNode]. *)
Definition ungroupNode `{ungroup_t} (node group : option nat) (transform : bool) (g : Graph)
  : bool * Graph :=
  match node with
  | None => (false, g)
  | Some n =>
      let current := getGroupOf g n in
      if bool_decide (group = None ∧ current = None) then (false, g)
      else if bool_decide (group ≠ None ∧ group ≠ current) then (false, g)
      else
        match current with
        | None => (false, g)
        | Some gr =>
            let g1 :=
              match getGroupItem g gr with
              | Some groupItem =>
                  with_items (ungroupNodeItem_ptr groupItem (fst <$> resolveItem g n)
                                                  transform (items g)) g
              | None => g
              end in
            match shared_from_this g1 n, shared_from_this g1 gr with
            | None, None =>
                match ungroup_node n gr (nodes g1) with
                | (Some _, ns) => (false, with_nodes ns g1)
                | (None, ns) =>
                    let g2 := with_nodes ns g1 in
                    match resolveItem g2 n with
                    | Some (i, _) =>
                        let g3 := setMaxZ (getMaxZ g2 + 1)%Q g2 in
                        (true, setZ i (getMaxZ g3) g3)
                    | None => (true, g2)
                    end
                end
            | _, _ => (false, g1)
            end
        end
  end.

(** Modelled from the spec: [ungroupNode] "detaches the node, making it
    a top-level (or parent-group-level) node again"; the base class
    rejects objects the store does not own.  The item of the node, when
    there is one, becomes a child of the parent of the group item. *)
Definition spec_ungroup_node (n gr : nat) (ns : gmap nat Node) : option Exn * gmap nat Node :=
  match ns !! n, ns !! gr with
  | Some _, Some _ =>
      (None, alter (λ o, set_members (filter (λ m, m ≠ n) (get_nodes o)) o) gr
                   (alter (set_group None) n ns))
  | _, _ => (Some bad_topology_error, ns)
  end.

Definition spec_ungroup : ungroup_t :=
  {| ungroup_node := spec_ungroup_node;
     ungroupNodeItem_ptr := λ groupItem nodeItem _ its,
       match nodeItem with
       | Some i => reparent i ((its !! groupItem) ≫= parentItem) its
       | None => its
       end |}.

(** *** Ports and the edges bound to them *)

(** [qan::PortItem::Type] and [qan::PortItem::Multiplicity]. *)
Inductive PortType : Type := Type_In | Type_Out | Type_InOut.
Inductive Multiplicity : Type := Single | Multiple.

(** What the binding functions read and write of a [qan::PortItem] and
    of a [qan::EdgeItem]; items are addresses. *)
Record PortItem : Type := mkPortItem {
  getType : PortType;
  getMultiplicity : Multiplicity;
  getInEdgeItems : list nat;
  getOutEdgeItems : list nat
}.

Record EdgeItem : Type := mkEdgeItem {
  getSourceItem : option nat;
  getDestinationItem : option nat
}.

(** The objects the binding functions reach: the port items and the edge
    items by address, and for every edge object its [getItem()]. *)
Record Scene : Type := mkScene {
  portItems : gmap nat PortItem;
  edgeItems : gmap nat EdgeItem;
  edgeGetItem : gmap nat (option nat)
}.

(** [Graph::isEdgeSourceBindable]. *)
Definition isEdgeSourceBindable (outPort : PortItem) : bool :=
  match getType outPort with
  | Type_In => false
  | Type_Out | Type_InOut =>
      match getMultiplicity outPort with
      | Multiple => true
      | Single => (length (getOutEdgeItems outPort) =? 0)%nat
      end
  end.

(** [Graph::isEdgeDestinationBindable]. *)
Definition isEdgeDestinationBindable (inPort : PortItem) : bool :=
  match getType inPort with
  | Type_Out => false
  | Type_In | Type_InOut =>
      match getMultiplicity inPort with
      | Multiple => true
      | Single => (length (getInEdgeItems inPort) =? 0)%nat
      end
  end.

Definition appendOutEdgeItem (edgeItem : nat) (port : PortItem) : PortItem :=
  mkPortItem (getType port) (getMultiplicity port) (getInEdgeItems port)
             (getOutEdgeItems port ++ [edgeItem]).

Definition appendInEdgeItem (edgeItem : nat) (port : PortItem) : PortItem :=
  mkPortItem (getType port) (getMultiplicity port) (getInEdgeItems port ++ [edgeItem])
             (getOutEdgeItems port).

Definition setSourceItem (item : option nat) (e : EdgeItem) : EdgeItem :=
  mkEdgeItem item (getDestinationItem e).

Definition setDestinationItem (item : option nat) (e : EdgeItem) : EdgeItem :=
  mkEdgeItem (getSourceItem e) item.

(** [Graph::bindEdgeSource], the overload on references: [edge] and
    [outPort] are the addresses of the two objects.  A reference to a
    port that is not there has no meaning in the source; the scene is
    left as it is. *)
Definition bindEdgeSource_ref (edge outPort : nat) (s : Scene) : Scene :=
  match mjoin (edgeGetItem s !! edge) with
  | None => s
  | Some edgeItem =>
      match portItems s !! outPort with
      | None => s
      | Some port =>
          if isEdgeSourceBindable port then
            mkScene (alter (appendOutEdgeItem edgeItem) outPort (portItems s))
                    (alter (setSourceItem (Some outPort)) edgeItem (edgeItems s))
                    (edgeGetItem s)
          else s
      end
  end.

(** [Graph::bindEdgeDestination], the overload on references. *)
Definition bindEdgeDestination_ref (edge inPort : nat) (s : Scene) : Scene :=
  match mjoin (edgeGetItem s !! edge) with
  | None => s
  | Some edgeItem =>
      match portItems s !! inPort with
      | None => s
      | Some port =>
          if isEdgeDestinationBindable port then
            mkScene (alter (appendInEdgeItem edgeItem) inPort (portItems s))
                    (alter (setDestinationItem (Some inPort)) edgeItem (edgeItems s))
                    (edgeGetItem s)
          else s
      end
  end.

(** [Graph::bindEdgeSource] and [Graph::bindEdgeDestination], the
    overloads on pointers. *)
Definition bindEdgeSource (edge outPort : option nat) (s : Scene) : Scene :=
  match edge, outPort with
  | Some e, Some p => bindEdgeSource_ref e p s
  | _, _ => s
  end.

Definition bindEdgeDestination (edge inPort : option nat) (s : Scene) : Scene :=
  match edge, inPort with
  | Some e, Some p => bindEdgeDestination_ref e p s
  | _, _ => s
  end.

(** [Graph::bindEdge]: the destination first, then the source. *)
Definition bindEdge (edge outPort inPort : option nat) (s : Scene) : Scene :=
  bindEdgeSource edge outPort (bindEdgeDestination edge inPort s).

(** A port of multiplicity [Single] holds at most one edge item on each
    side. *)
Definition singlePortsBound (s : Scene) : Prop :=
  ∀ p port, portItems s !! p = Some port → getMultiplicity port = Single →
            (length (getOutEdgeItems port) ≤ 1)%nat ∧ (length (getInEdgeItems port) ≤ 1)%nat.

(** Two ports 1 (out, single) and 2 (in-out, multiple), and two edges 5
    and 6 with the edge items 15 and 16. *)
Definition portScene : Scene :=
  mkScene {[ 1%nat := mkPortItem Type_Out Single [] [];
             2%nat := mkPortItem Type_InOut Multiple [] [] ]}
          {[ 15%nat := mkEdgeItem None None; 16%nat := mkEdgeItem None None ]}
          {[ 5%nat := Some 15%nat; 6%nat := Some 16%nat ]}.

(** *** The walk from the root nodes *)

(** [Graph::collectDfs(bool collectGroup)]; [rootNodes] is the vector
    [get_root_nodes()] of the base class. *)
Definition collectDfsRootsWalk (fuel : nat) (g : Graph) (rootNodes : list nat)
    (collectGroup : bool) : option Walk :=
  forEach (λ rootNode, collectDfsRec fuel g collectGroup (lock g rootNode)) rootNodes (∅, []).

Definition collectDfsRoots (fuel : nat) (g : Graph) (rootNodes : list nat)
    (collectGroup : bool) : option (list nat) :=
  snd <$> collectDfsRootsWalk fuel g rootNodes collectGroup.

(** [Graph::collectRootNodes]: one pointer per root, null for a root
    that is gone. *)
Definition collectRootNodes (g : Graph) (rootNodes : list nat) : list (option nat) :=
  lock g <$> rootNodes.

(** One step downwards: [m] is a live node at an out-edge of [n], or a
    live member of the group [n] when members are followed. *)
Definition descendantStep (g : Graph) (collectGroup : bool) (n m : nat) : Prop :=
  ∃ obj, nodes g !! n = Some obj ∧ is_Some (nodes g !! m)
         ∧ (m ∈ get_out_nodes obj
            ∨ (collectGroup = true ∧ isGroup obj = true ∧ m ∈ get_nodes obj)).

(** The first step upwards, from the start node of [collectAncestorsDfs]:
    an in-edge, or a member when members are followed. *)
Definition ancestorStartStep (g : Graph) (collectGroup : bool) (n m : nat) : Prop :=
  ∃ obj, nodes g !! n = Some obj ∧ is_Some (nodes g !! m)
         ∧ (m ∈ get_in_nodes obj
            ∨ (collectGroup = true ∧ isGroup obj = true ∧ m ∈ get_nodes obj)).

(** A later step upwards: as the first one, or to the owning group. *)
Definition ancestorStep (g : Graph) (collectGroup : bool) (n m : nat) : Prop :=
  ancestorStartStep g collectGroup n m
  ∨ ∃ obj, nodes g !! n = Some obj ∧ is_Some (nodes g !! m) ∧ get_group obj = Some m.

(** The selected flag of the item at address [i]. *)
Definition flagOf (g : Graph) (i : nat) : option bool := getSelected <$> items g !! i.

(** An observation of the items that none of the selection functions
    changes: it ignores parents, child lists, z, the decoration and the
    selected flag. *)
Definition selectionBlind {A} (F : QQuickItem → A) : Prop :=
  (∀ it q, F (set_parent q it) = F it)
  ∧ (∀ it l, F (set_child_items l it) = F it)
  ∧ (∀ it v, F (set_z v it) = F it)
  ∧ (∀ it s, F (set_selection_item s it) = F it)
  ∧ (∀ it b, F (set_selected_flag b it) = F it).

(** Both selection vectors hold every address at most once. *)
Definition distinctSelection (g : Graph) : Prop :=
  NoDup (getSelectedNodes g) ∧ NoDup (getSelectedGroups g).

(** The item of every selected node is a node item that knows a node, as
    [insertNode] makes them. *)
Definition selectedNodesHaveNodeItems (g : Graph) : Prop :=
  ∀ q i it, q ∈ getSelectedNodes g → resolveItem g q = Some (i, it) →
            isNodeItem it = true ∧ is_Some (getNode it).

(** [_maxZ] is a high-water mark: no item lies above it. *)
Definition zBounded (g : Graph) : Prop :=
  ∀ j it, items g !! j = Some it → (z it <= getMaxZ g)%Q.

(** * Properties *)

Lemma sameTopology_refl g : sameTopology g g.
Proof. done. Qed.

Lemma sameTopology_trans g1 g2 g3 :
  sameTopology g1 g2 → sameTopology g2 g3 → sameTopology g1 g3.
Proof.
  intros (?&?&?&?) (?&?&?&?). repeat split; try congruence. auto.
Qed.

Lemma sameTopology_alter f i g :
  sameTopology g (with_items (alter f i (items g)) g).
Proof.
  repeat split; simpl. intros j. rewrite lookup_alter.
  case_decide; subst; [|done]. intros [? ->]; by eexists.
Qed.

Lemma reparent_is_Some i p (its : gmap nat QQuickItem) j :
  is_Some (its !! j) → is_Some (reparent i p its !! j).
Proof.
  intros Hj. unfold reparent. destruct (its !! i) as [it|]; [|done].
  assert (∀ (f : QQuickItem → QQuickItem) k (m : gmap nat QQuickItem),
            is_Some (m !! j) → is_Some (alter f k m !! j)) as Halter.
  { intros f k m [v Hv]. rewrite lookup_alter. case_decide; subst; rewrite Hv; by eexists. }
  destruct p; destruct (parentItem it); repeat apply Halter; done.
Qed.

Lemma setParentItem_frame i p g :
  sameTopology g (setParentItem i p g)
  ∧ getSelectedNodes (setParentItem i p g) = getSelectedNodes g
  ∧ getSelectedGroups (setParentItem i p g) = getSelectedGroups g.
Proof.
  split; [|done]. repeat split; simpl. intros j. apply reparent_is_Some.
Qed.

Lemma sameTopology_insert_fresh it g :
  sameTopology g (with_items (<[fresh (dom (items g)) := it]> (items g)) g).
Proof.
  repeat split; simpl. intros j Hj. rewrite lookup_insert_ne; [done|].
  intros <-. apply elem_of_dom in Hj. by apply is_fresh in Hj.
Qed.

Lemma createItemFromComponent_frame c g :
  sameTopology g (createItemFromComponent c g).2
  ∧ getSelectedNodes (createItemFromComponent c g).2 = getSelectedNodes g
  ∧ getSelectedGroups (createItemFromComponent c g).2 = getSelectedGroups g.
Proof.
  unfold createItemFromComponent.
  destruct c as [c|]; [|done].
  destruct (isReady c), (qmlContext g), (beginCreate c) as [cls|]; simpl; try done.
  destruct (isErrorAfterBegin c); simpl; [done|].
  pose proof (sameTopology_insert_fresh (newItem cls) g) as Hins.
  destruct (isErrorAfterComplete c); simpl; [done|].
  match goal with |- context [setParentItem ?i ?p ?g1] =>
    destruct (setParentItem_frame i p g1) as (Hs & Hn & Hg) end.
  split; [by eapply sameTopology_trans|done].
Qed.

Lemma createSelectionItem_frame parent g :
  sameTopology g (createSelectionItem parent g).2
  ∧ getSelectedNodes (createSelectionItem parent g).2 = getSelectedNodes g
  ∧ getSelectedGroups (createSelectionItem parent g).2 = getSelectedGroups g.
Proof.
  unfold createSelectionItem.
  destruct (createItemFromComponent_frame (selectionDelegate g) g) as (Hs & Hn & Hg).
  destruct (createItemFromComponent (selectionDelegate g) g) as [[s|] g1]; simpl in *; [|done].
  destruct parent as [p|]; simpl; [|done].
  destruct (setParentItem_frame s (Some p) g1) as (Hs' & Hn' & Hg').
  split.
  - eapply sameTopology_trans; [exact Hs|].
    eapply sameTopology_trans; [exact Hs'|]. apply sameTopology_alter.
  - done.
Qed.

Lemma removeFromSelection_target i it P p g :
  items g !! i = Some it → selectionTarget it = Some (P, p) →
  removeFromSelection i g
  = with_selectedPrimitives P (removeAll p (selectedPrimitives P g)) g.
Proof.
  unfold removeFromSelection, selectionTarget. intros -> H.
  destruct (if isNodeItem it then getNode it else None).
  - by simplify_eq.
  - destruct (if isGroupItem it then getGroup it else None); by simplify_eq.
Qed.

Lemma removeFromSelection_frame i g :
  nodes (removeFromSelection i g) = nodes g
  ∧ items (removeFromSelection i g) = items g
  ∧ getSelectionPolicy (removeFromSelection i g) = getSelectionPolicy g
  ∧ getMaxZ (removeFromSelection i g) = getMaxZ g.
Proof.
  unfold removeFromSelection. destruct (items g !! i) as [it|]; [|done].
  destruct (if isNodeItem it then getNode it else None); [done|].
  by destruct (if isGroupItem it then getGroup it else None).
Qed.

Lemma setSelected_sameTopology i b g : sameTopology g (setSelected i b g).
Proof.
  unfold setSelected. destruct b.
  - apply sameTopology_alter.
  - destruct (removeFromSelection_frame i g) as (Hn & Hi & Hp & Hz).
    repeat split; simpl; try done. intros j. rewrite Hi, lookup_alter.
    case_decide; subst; [|done]. intros [? ->]; by eexists.
Qed.

Lemma setSelected_true_selection i g :
  getSelectedNodes (setSelected i true g) = getSelectedNodes g
  ∧ getSelectedGroups (setSelected i true g) = getSelectedGroups g.
Proof. done. Qed.

Lemma setSelected_flag i b it g :
  items g !! i = Some it →
  items (setSelected i b g) !! i = Some (set_selected_flag b it).
Proof.
  intros H. unfold setSelected. simpl.
  destruct b; simpl.
  - by rewrite lookup_alter_eq, H.
  - destruct (removeFromSelection_frame i g) as (_ & -> & _).
    by rewrite lookup_alter_eq, H.
Qed.

Lemma resolveItem_Some g p i it :
  resolveItem g p = Some (i, it) ↔ getItemOf g p = Some i ∧ items g !! i = Some it.
Proof.
  unfold resolveItem. destruct (getItemOf g p) as [j|]; simpl; [|naive_solver].
  destruct (items g !! j) eqn:E; simpl; naive_solver.
Qed.

Lemma resolveItem_sameTopology g g' p i it :
  sameTopology g g' → resolveItem g p = Some (i, it) →
  ∃ it', resolveItem g' p = Some (i, it').
Proof.
  intros (Hn & _ & _ & Hi) [H1 H2]%resolveItem_Some.
  destruct (Hi i) as [it' Hit']; [by eexists|].
  exists it'. apply resolveItem_Some. split; [|done].
  unfold getItemOf in *. by rewrite Hn.
Qed.

Lemma selectedPrimitives_with P l g :
  selectedPrimitives P (with_selectedPrimitives P l g) = l.
Proof. by destruct P. Qed.

Lemma otherPrimitives_with P l g :
  selectedPrimitives (otherPrimitive P) (with_selectedPrimitives P l g)
  = selectedPrimitives (otherPrimitive P) g.
Proof. by destruct P. Qed.

Lemma sameTopology_with_selected P l g :
  sameTopology g (with_selectedPrimitives P l g).
Proof. by destruct P. Qed.

Lemma selected_frame_lists P g g' :
  getSelectedNodes g' = getSelectedNodes g →
  getSelectedGroups g' = getSelectedGroups g →
  selectedPrimitives P g' = selectedPrimitives P g.
Proof. by destruct P. Qed.

Lemma resolveItem_ext g g' p :
  nodes g' = nodes g → items g' = items g → resolveItem g' p = resolveItem g p.
Proof. unfold resolveItem, getItemOf. by intros -> ->. Qed.

Lemma addToSelectionImpl_new P p g i it :
  p ∉ selectedPrimitives P g →
  resolveItem g p = Some (i, it) →
  selectedPrimitives P (addToSelectionImpl P p g) = selectedPrimitives P g ++ [p]
  ∧ selectedPrimitives (otherPrimitive P) (addToSelectionImpl P p g)
    = selectedPrimitives (otherPrimitive P) g
  ∧ sameTopology g (addToSelectionImpl P p g)
  ∧ ∃ it', items (addToSelectionImpl P p g) !! i = Some it' ∧ getSelected it' = true.
Proof.
  intros Hnot Hres. unfold addToSelectionImpl, contains.
  rewrite bool_decide_eq_false_2 by done.
  set (g1 := with_selectedPrimitives P (selectedPrimitives P g ++ [p]) g).
  assert (resolveItem g1 p = Some (i, it)) as ->.
  { rewrite <- Hres. apply resolveItem_ext; by destruct P. }
  assert (items g1 !! i = Some it) as Hit.
  { apply resolveItem_Some in Hres as [_ Hres]. by destruct P. }
  assert (∃ g2, (match getSelectionItem it with
                 | None => let '(s, g') := createSelectionItem (Some i) g1 in
                           with_items (alter (set_selection_item s) i (items g')) g'
                 | Some _ => g1
                 end) = g2
                ∧ sameTopology g1 g2
                ∧ getSelectedNodes g2 = getSelectedNodes g1
                ∧ getSelectedGroups g2 = getSelectedGroups g1) as (g2 & -> & Hs2 & Hn2 & Hg2).
  { destruct (getSelectionItem it); [by eexists|].
    destruct (createSelectionItem_frame (Some i) g1) as (Hs & Hn & Hg).
    destruct (createSelectionItem (Some i) g1) as [s g']; simpl in *.
    eexists; split; [done|]. split; [|done].
    eapply sameTopology_trans; [exact Hs|]. apply sameTopology_alter. }
  destruct Hs2 as (Hnod & Hpol & Hz & Hitems).
  destruct (Hitems i) as [it2 Hit2]; [by eexists|].
  repeat split.
  - rewrite (selected_frame_lists P g1 (setSelected i true g2)) by done.
    apply selectedPrimitives_with.
  - rewrite (selected_frame_lists _ g1 (setSelected i true g2)) by done.
    apply otherPrimitives_with.
  - simpl. rewrite Hnod. by destruct P.
  - simpl. rewrite Hpol. by destruct P.
  - simpl. rewrite Hz. by destruct P.
  - intros j Hj. simpl. rewrite lookup_alter. case_decide; [apply fmap_is_Some|];
      apply Hitems; by destruct P.
  - exists (set_selected_flag true it2). split; [|done].
    by apply setSelected_flag.
Qed.

Lemma deselectAll_sameTopology copy g : sameTopology g (deselectAll copy g).
Proof.
  unfold deselectAll. revert g. induction copy as [|p copy IH]; intros g; simpl; [done|].
  eapply sameTopology_trans; [|apply IH].
  destruct (resolveItem g p) as [[i ?]|]; [apply setSelected_sameTopology|done].
Qed.

Lemma removeFromSelection_nodes_nil i g :
  getSelectedNodes g = [] → getSelectedNodes (removeFromSelection i g) = [].
Proof.
  intros H. unfold removeFromSelection. destruct (items g !! i) as [it|]; [|done].
  destruct (if isNodeItem it then getNode it else None); simpl.
  - by rewrite H.
  - by destruct (if isGroupItem it then getGroup it else None).
Qed.

Lemma deselectAll_nodes_nil copy g :
  getSelectedNodes g = [] → getSelectedNodes (deselectAll copy g) = [].
Proof.
  unfold deselectAll. revert g. induction copy as [|p copy IH]; intros g H; simpl; [done|].
  apply IH. destruct (resolveItem g p) as [[i ?]|]; [|done].
  simpl. by apply removeFromSelection_nodes_nil.
Qed.

Lemma clearSelection_spec g :
  getSelectedNodes (clearSelection g) = []
  ∧ getSelectedGroups (clearSelection g) = []
  ∧ sameTopology g (clearSelection g).
Proof.
  unfold clearSelection. split; [|split; [done|]].
  - simpl. by apply deselectAll_nodes_nil.
  - eapply sameTopology_trans; [apply (deselectAll_sameTopology (getSelectedNodes g))|].
    eapply sameTopology_trans; [apply (sameTopology_with_selected qan_Node [])|].
    eapply sameTopology_trans; [apply deselectAll_sameTopology|].
    apply (sameTopology_with_selected qan_Group []).
Qed.

Lemma removeAll_not_in p l : p ∉ removeAll p l.
Proof. unfold removeAll. rewrite list_elem_of_filter. naive_solver. Qed.

Lemma selectPrimitive_NoSelection P p modifiers g :
  getSelectionPolicy g = NoSelection → selectPrimitive P p modifiers g = (false, g).
Proof. unfold selectPrimitive. by intros ->. Qed.

Lemma selectPrimitive_no_item P p modifiers g :
  resolveItem g p = None → selectPrimitive P p modifiers g = (false, g).
Proof. unfold selectPrimitive. intros ->. by destruct (getSelectionPolicy g). Qed.

Lemma getItemOf_None_resolveItem g p : getItemOf g p = None → resolveItem g p = None.
Proof. unfold resolveItem. by intros ->. Qed.

Lemma setSelected_false_target i it P p g :
  items g !! i = Some it → selectionTarget it = Some (P, p) →
  selectedPrimitives P (setSelected i false g) = removeAll p (selectedPrimitives P g)
  ∧ selectedPrimitives (otherPrimitive P) (setSelected i false g)
    = selectedPrimitives (otherPrimitive P) g
  ∧ nodes (setSelected i false g) = nodes g
  ∧ items (setSelected i false g) !! i = Some (set_selected_flag false it).
Proof.
  intros Hit Htgt. split; [|split; [|split]].
  - unfold setSelected. rewrite (removeFromSelection_target i it P p g Hit Htgt).
    by destruct P.
  - unfold setSelected. rewrite (removeFromSelection_target i it P p g Hit Htgt).
    by destruct P.
  - apply setSelected_sameTopology.
  - by apply setSelected_flag.
Qed.

(** C3 (amended).  For an entity that has a visual item, [selectPrimitive]
    (the body of [selectNode] and [selectGroup]) refines the selection
    state machine [trySelect]: nothing happens and the result is false
    under [NoSelection]; a selected entity is deselected when the modifier
    is held and left alone otherwise, the result being false; an
    unselected entity is selected under [SelectOnClick], all other
    selections being cleared first when the modifier is absent, and under
    [SelectOnCtrlClick] only when the modifier is held.  The result is
    true exactly when the entity was not in its selection set before and
    is in it afterwards, and the selected flag of its item follows the
    set.  The item is assumed to refer back to its entity, and its flag to
    agree with the set before the call. *)
Theorem selectPrimitive_state_machine (P : Primitive_t) (p i : nat) (it : QQuickItem)
    (modifiers : Z) (g : Graph) :
  resolveItem g p = Some (i, it) →
  selectionTarget it = Some (P, p) →
  getSelected it = bool_decide (p ∈ selectedPrimitives P g) →
  let r := selectPrimitive P p modifiers g in
  (r.1, selectedPrimitives P r.2, selectedPrimitives (otherPrimitive P) r.2)
  = trySelect (getSelectionPolicy g) (ctrlPressed modifiers) p
              (selectedPrimitives P g) (selectedPrimitives (otherPrimitive P) g)
  ∧ (r.1 = true ↔ ((p ∉ selectedPrimitives P g) ∧ (p ∈ selectedPrimitives P r.2)))
  ∧ (∃ it', resolveItem r.2 p = Some (i, it')
            ∧ getSelected it' = bool_decide (p ∈ selectedPrimitives P r.2)).
Proof.
  intros Hres Htgt Hsel r.
  assert (items g !! i = Some it) as Hit by (by apply resolveItem_Some in Hres as [_ ?]).
  assert (getItemOf g p = Some i) as Hptr by (by apply resolveItem_Some in Hres as [? _]).
  subst r. unfold selectPrimitive, trySelect. rewrite Hres.
  destruct (getSelected it) eqn:Hflag.
  - (* the entity is selected *)
    symmetry in Hsel. apply bool_decide_eq_true in Hsel as Hin.
    rewrite (bool_decide_eq_true_2 _ Hin).
    destruct (getSelectionPolicy g) eqn:Hpol, (ctrlPressed modifiers); simpl;
      try (repeat split; try done; [naive_solver|];
           exists it; split; [done|]; by rewrite Hflag, bool_decide_eq_true_2).
    all: destruct (setSelected_false_target i it P p g Hit Htgt) as (H1 & H2 & H3 & H4);
      rewrite H1, H2; (repeat split; try done; [naive_solver|]);
      exists (set_selected_flag false it); split;
      [ apply resolveItem_Some; split; [unfold getItemOf in *; by rewrite H3 | done]
      | simpl; symmetry; apply bool_decide_eq_false_2, removeAll_not_in ].
  - (* the entity is not selected *)
    symmetry in Hsel. apply bool_decide_eq_false in Hsel as Hin.
    rewrite (bool_decide_eq_false_2 _ Hin).
    assert (∀ g1, sameTopology g g1 → p ∉ selectedPrimitives P g1 →
              selectedPrimitives P (addToSelection P p g1) = selectedPrimitives P g1 ++ [p]
              ∧ selectedPrimitives (otherPrimitive P) (addToSelection P p g1)
                = selectedPrimitives (otherPrimitive P) g1
              ∧ ∃ it', resolveItem (addToSelection P p g1) p = Some (i, it')
                       ∧ getSelected it' = true) as Hadd.
    { intros g1 Hs Hnot. unfold addToSelection.
      destruct (resolveItem_sameTopology _ _ _ _ _ Hs Hres) as (it1 & Hres1).
      destruct (addToSelectionImpl_new P p g1 i it1 Hnot Hres1)
        as (H1 & H2 & H3 & it' & H4 & H5).
      repeat split; try done. exists it'. split; [|done].
      destruct (resolveItem_sameTopology _ _ _ _ _ H3 Hres1) as (it2 & Hit2).
      pose proof Hit2 as [_ Hit2']%resolveItem_Some. congruence. }
    destruct (getSelectionPolicy g) eqn:Hpol, (ctrlPressed modifiers); simpl;
      try (repeat split; try done; [naive_solver|];
           exists it; split; [done|]; by rewrite Hflag, bool_decide_eq_false_2).
    + (* SelectOnClick with the modifier: additive *)
      destruct (Hadd g (sameTopology_refl g) Hin) as (H1 & H2 & it' & H3 & H4).
      rewrite H1, H2. repeat split; try done; [set_solver|].
      exists it'. split; [done|]. rewrite H4. symmetry. apply bool_decide_eq_true_2. set_solver.
    + (* SelectOnClick without the modifier: exclusive *)
      destruct (clearSelection_spec g) as (Hn & Hg & Hs).
      assert (selectedPrimitives P (clearSelection g) = []) as HP by (by destruct P).
      assert (selectedPrimitives (otherPrimitive P) (clearSelection g) = []) as HO
        by (by destruct P).
      assert (p ∉ selectedPrimitives P (clearSelection g)) as Hnot
        by (rewrite HP; apply not_elem_of_nil).
      destruct (Hadd _ Hs Hnot) as (H1 & H2 & it' & H3 & H4).
      rewrite H1, H2, HP, HO. repeat split; try done; [set_solver|].
      exists it'. split; [done|]. rewrite H4. symmetry. apply bool_decide_eq_true_2. set_solver.
    + (* SelectOnCtrlClick with the modifier *)
      destruct (Hadd g (sameTopology_refl g) Hin) as (H1 & H2 & it' & H3 & H4).
      rewrite H1, H2. repeat split; try done; [set_solver|].
      exists it'. split; [done|]. rewrite H4. symmetry. apply bool_decide_eq_true_2. set_solver.
Qed.

(** ** Selection: the claims *)

(** C10.  A node whose visual item is null is never selected: whatever the
    selection policy and the modifiers, [selectNode] returns false and
    [setNodeSelected] does nothing, and the graph, both selection sets
    included, is left as it was.  The overloads that take a pointer
    behave alike, also on a null pointer. *)
Theorem nonvisual_node_selection_noop (g : Graph) (node : nat) (modifiers : Z)
    (selected : bool) :
  getItemOf g node = None →
  selectNode node modifiers g = (false, g)
  ∧ setNodeSelected node selected g = g
  ∧ selectNode_ptr (Some node) g = (false, g)
  ∧ setNodeSelected_ptr (Some node) selected g = g
  ∧ selectNode_ptr None g = (false, g)
  ∧ setNodeSelected_ptr None selected g = g.
Proof.
  intros Hnull%getItemOf_None_resolveItem.
  unfold selectNode_ptr, setNodeSelected_ptr, selectNode, setNodeSelected,
    setPrimitiveSelected.
  rewrite !selectPrimitive_no_item by done. by rewrite Hnull.
Qed.

Lemma nonvisual_node_selection_noop_witness :
  getItemOf nonVisualGraph 1 = None
  ∧ selectNode 1 ControlModifier nonVisualGraph = (false, nonVisualGraph)
  ∧ setNodeSelected 1 true nonVisualGraph = nonVisualGraph.
Proof.
  split; [reflexivity|].
  pose proof (nonvisual_node_selection_noop nonVisualGraph 1 ControlModifier true
                eq_refl) as H.
  split; apply H.
Defined.

(** C3, as the claim states it, fails on an entity without a visual item:
    under [SelectOnClick] the state machine selects the unselected node 1
    of [nonVisualGraph], the code returns false and selects nothing. *)
Lemma selectNode_nonvisual_counterexample :
  let r := selectNode 1 NoModifier nonVisualGraph in
  (1 ∉ getSelectedNodes nonVisualGraph)
  ∧ (r.1, getSelectedNodes r.2, getSelectedGroups r.2)
    ≠ trySelect (getSelectionPolicy nonVisualGraph) (ctrlPressed NoModifier) 1
                (getSelectedNodes nonVisualGraph) (getSelectedGroups nonVisualGraph)
  ∧ r.1 = false ∧ 1 ∉ getSelectedNodes r.2.
Proof.
  cbv zeta. split; [apply not_elem_of_nil|]. split; [by vm_compute|].
  split; [reflexivity|]. vm_compute. apply not_elem_of_nil.
Qed.

Lemma selectPrimitive_state_machine_witness :
  let it := mkItem NodeItemClass (Some 1%nat) None false None 0%Q 10%Q 1%Q (Some 100%nat) [] in
  let r := selectPrimitive qan_Node 1 NoModifier visualGraph in
  resolveItem visualGraph 1 = Some (11%nat, it)
  ∧ selectionTarget it = Some (qan_Node, 1%nat)
  ∧ getSelected it = bool_decide (1%nat ∈ selectedPrimitives qan_Node visualGraph)
  ∧ (r.1, selectedPrimitives qan_Node r.2, selectedPrimitives qan_Group r.2)
    = (true, [1%nat], []).
Proof.
  cbv zeta. split; [reflexivity|]. split; [reflexivity|]. split; [reflexivity|].
  exact (proj1 (selectPrimitive_state_machine qan_Node 1 11 _ NoModifier visualGraph
                  eq_refl eq_refl eq_refl)).
Defined.

(** The scenario of the specification: a click on the unselected node 1
    selects it and deselects node 2; a second click with the modifier held
    deselects it; a click without the modifier selects it again. *)
Example select_on_click_scenario :
  let g1 := (selectNode 2 NoModifier visualGraph).2 in
  let r2 := selectNode 1 NoModifier g1 in
  let r3 := selectNode 1 ControlModifier r2.2 in
  let r4 := selectNode 1 NoModifier r3.2 in
  getSelectedNodes g1 = [2%nat]
  ∧ (r2.1, getSelectedNodes r2.2) = (true, [1%nat])
  ∧ (r3.1, getSelectedNodes r3.2) = (false, [])
  ∧ (r4.1, getSelectedNodes r4.2) = (true, [1%nat]).
Proof. cbv zeta. repeat split; by vm_compute. Qed.

(** ** Removal and the selection sets *)

Section Removal.
Context `{gtpo : gtpo_graph_t} `{groupItems : GroupItem_t}.

Lemma ungroupMembers_selection gr g :
  getSelectedNodes (ungroupMembers gr g) = getSelectedNodes g
  ∧ getSelectedGroups (ungroupMembers gr g) = getSelectedGroups g
  ∧ nodes (ungroupMembers gr g) = nodes g.
Proof.
  unfold ungroupMembers.
  generalize (default [] (get_nodes <$> nodes g !! gr)). intros l.
  revert g. induction l as [|m l IH]; intros g; simpl; [done|].
  match goal with |- context [foldl ?f ?g0 l] =>
    change (foldl f g0 l) with (foldl f g0 l); set (g1 := g0) end.
  assert (getSelectedNodes g1 = getSelectedNodes g
          ∧ getSelectedGroups g1 = getSelectedGroups g
          ∧ nodes g1 = nodes g) as (H1 & H2 & H3).
  { subst g1. destruct (resolveItem g m) as [[? ?]|]; [|done].
    by destruct (getGroupItem g gr). }
  destruct (IH g1) as (I1 & I2 & I3). by rewrite I1, I2, I3.
Qed.

(** [removeNode] takes the node out of the selected nodes. *)
Lemma removeNode_deselects_node n g :
  n ∉ getSelectedNodes (removeNode (Some n) g).2.
Proof.
  unfold removeNode, contains.
  set (g1 := if bool_decide _ then _ else g).
  assert (n ∉ getSelectedNodes g1) as Hn.
  { subst g1. case_bool_decide; [apply removeAll_not_in|done]. }
  destruct (shared_from_this g1 n); [done|].
  destruct (remove_node n (nodes g1)) as [[[]|] ns]; done.
Qed.

(** [removeNode] and [removeGroup] never look at the selected groups. *)
Lemma removeNode_selectedGroups node g :
  getSelectedGroups (removeNode node g).2 = getSelectedGroups g.
Proof.
  unfold removeNode. destruct node as [n|]; [|done].
  set (g1 := if contains _ _ then _ else g).
  assert (getSelectedGroups g1 = getSelectedGroups g) as <-
    by (subst g1; by destruct (contains _ _)).
  destruct (shared_from_this g1 n); [done|].
  destruct (remove_node n (nodes g1)) as [[[]|] ns]; done.
Qed.

Lemma removeGroup_selectedGroups group g :
  getSelectedGroups (removeGroup group g).2 = getSelectedGroups g.
Proof.
  unfold removeGroup. destruct group as [gr|]; [|done].
  destruct (ungroupMembers_selection gr g) as (H1 & H2 & H3).
  set (g2 := if contains _ _ then _ else _).
  assert (getSelectedGroups g2 = getSelectedGroups g) as <-
    by (subst g2; by destruct (contains _ _)).
  destruct (shared_from_this g2 gr); [done|].
  by destruct (remove_group gr (nodes g2)).
Qed.

(** A selected group is still in the selected groups when [removeGroup]
    is done with it, whatever the base class does. *)
Lemma removeGroup_keeps_selected_group gr g :
  gr ∈ getSelectedGroups g → gr ∈ getSelectedGroups (removeGroup (Some gr) g).2.
Proof. by rewrite removeGroup_selectedGroups. Qed.

(** When [removeSelection] returns, both selection sets are empty. *)
Lemma removeSelection_clears g g' :
  removeSelection g = (None, g') →
  getSelectedNodes g' = [] ∧ getSelectedGroups g' = [].
Proof.
  unfold removeSelection.
  destruct (removeEach removeNode _ g) as [[e|] g1]; [done|].
  destruct (removeEach removeGroup _ g1) as [[e|] g2]; [done|].
  intros [= <-]. destruct (clearSelection_spec g2) as (? & ? & _). done.
Qed.
End Removal.

(** C1, at the failing input: group 3 of [visualGraph] is selected by
    [selectGroup] and then removed by [removeGroup].  The group object is
    gone from the store, and the selected groups still hold its address. *)
Theorem removeGroup_leaves_dangling_selection :
  let g1 := (selectGroup 3 NoModifier visualGraph).2 in
  let r := @removeGroup spec_gtpo spec_groupItems (Some 3%nat) g1 in
  getSelectedGroups g1 = [3%nat]
  ∧ r.1 = None
  ∧ nodes r.2 !! 3%nat = None
  ∧ getSelectedGroups r.2 = [3%nat].
Proof. cbv zeta. repeat split; by vm_compute. Qed.

(** ** Grouping *)

Lemma with_nodes_id g : with_nodes (nodes g) g = g.
Proof. by destruct g. Qed.

Section Grouping.
Context `{gtpo : gtpo_graph_t} `{groupItems : GroupItem_t}.


(** The node objects are as they were, too, when the base class raises
    without having changed them. *)
Lemma groupNode_topology_error gr n e transform g :
  gr ≠ n → is_Some (nodes g !! n) → is_Some (nodes g !! gr) →
  group_node n gr (nodes g) = (Some e, nodes g) →
  groupNode (Some gr) (Some n) transform g = (false, g).
Proof.
  intros Hne Hn Hgr E. unfold groupNode, shared_from_this.
  rewrite decide_False, !decide_True, E by done. by rewrite with_nodes_id.
Qed.
End Grouping.


(** A call that succeeds: node 1 of [visualGraph] joins group 3. *)
Example groupNode_success :
  let r := @groupNode spec_gtpo spec_groupItems (Some 3%nat) (Some 1%nat) true visualGraph in
  r.1 = true
  ∧ getGroupOf r.2 1 = Some 3%nat
  ∧ get_nodes <$> nodes r.2 !! 3%nat = Some [2%nat; 1%nat]
  ∧ parentItem <$> items r.2 !! 11%nat = Some (Some 13%nat).
Proof. cbv zeta. repeat split; by vm_compute. Qed.

(** ** Insertion of a node *)




Section Insertion.
Context `{gtpo : gtpo_graph_t} `{groupItems : GroupItem_t}.

End Insertion.



(** The three nodes the scenario of the specification inserts, one after
    the other, into [visualGraph]: each insertion succeeds and the items
    get the z values 4, 5 and 6. *)
Example insertNode_three_nodes :
  let node := mkNode false None None [] [] [] in
  let r1 := @insertNode spec_gtpo (Some (5%nat, node)) None (Some ()) visualGraph in
  let r2 := @insertNode spec_gtpo (Some (6%nat, node)) None (Some ()) r1.2 in
  let r3 := @insertNode spec_gtpo (Some (7%nat, node)) None (Some ()) r2.2 in
  (r1.1, r2.1, r3.1) = (true, true, true)
  ∧ (λ p, z <$> itemOf r3.2 p) <$> [5%nat; 6%nat; 7%nat] = [Some 4%Q; Some 5%Q; Some 6%Q]
  ∧ getMaxZ r3.2 = 6%Q.
Proof. cbv zeta. repeat split; by vm_compute. Qed.

(** ** Stacking *)

Lemma Qltb_lt a b : Qltb a b = true ↔ (a < b)%Q.
Proof.
  unfold Qltb. rewrite Qlt_alt. destruct (a ?= b)%Q; split; congruence.
Qed.

Lemma Qltb_ge a b : Qltb a b = false ↔ (b <= a)%Q.
Proof.
  rewrite <- not_true_iff_false, Qltb_lt. split; [apply Qnot_lt_le|apply Qle_not_lt].
Qed.




Lemma zOf_setZ_ne i j v g : i ≠ j → zOf (setZ i v g) j = zOf g j.
Proof. intros Hne. unfold zOf, setZ. simpl. by rewrite lookup_alter_ne. Qed.

Lemma setZ_lookup_ne i j v g : i ≠ j → items (setZ i v g) !! j = items g !! j.
Proof. intros Hne. unfold setZ. simpl. by rewrite lookup_alter_ne. Qed.





(** The scenario of the specification from the insertions on: three nodes
    are inserted into [visualGraph], then sent to front one after the
    other; their items end with the z values 7, 8 and 9. *)
Example insert_then_sendToFront_scenario :
  let node := mkNode false None None [] [] [] in
  let g1 := (@insertNode spec_gtpo (Some (5%nat, node)) None (Some ()) visualGraph).2 in
  let g2 := (@insertNode spec_gtpo (Some (6%nat, node)) None (Some ()) g1).2 in
  let g3 := (@insertNode spec_gtpo (Some (7%nat, node)) None (Some ()) g2).2 in
  let front p g := sendToFront 0 (getItemOf g p) g in
  (λ g, (λ p, z <$> itemOf g p) <$> [5%nat; 6%nat; 7%nat])
    <$> ((front 5%nat g3 ≫= front 6%nat) ≫= front 7%nat)
  = Some [Some 7%Q; Some 8%Q; Some 9%Q].
Proof. by vm_compute. Qed.

(** C2, at the failing input: node 2 of [visualGraph] is nested inside
    group 3, whose item is a child of the container.  [sendToFront] on
    the item of the node gives that item the next maximum z and leaves
    the item of the containing group where it was, with z = 2. *)
Theorem sendToFront_nested_node_skips_groups :
  ∃ g', sendToFront (walkFuel visualGraph) (Some 12%nat) visualGraph = Some g'
        ∧ getGroupOf visualGraph 2 = Some 3%nat
        ∧ getGroupItem visualGraph 3 = Some 13%nat
        ∧ zOf visualGraph 13 = Some 2%Q
        ∧ zOf g' 13 = Some 2%Q
        ∧ zOf g' 12 = Some 4%Q
        ∧ getMaxZ g' = 4%Q.
Proof. eexists. split; [by vm_compute|]. repeat split; by vm_compute. Qed.

(** On the item of a nested group the chain is walked from the inside
    out: in [nestedGraph] the item of group 4 gets the z of its highest
    sibling plus one (7 + 1, and [_maxZ] follows), then the item of group
    3, a child of the container, gets the next maximum z. *)
Example sendToFront_nested_group :
  collectGroups_rec (walkFuel nestedGraph) nestedGraph 14 = Some [14%nat; 13%nat]
  ∧ ∃ g', sendToFront (walkFuel nestedGraph) (Some 14%nat) nestedGraph = Some g'
          ∧ zOf g' 14 = Some 8%Q ∧ zOf g' 13 = Some 9%Q ∧ getMaxZ g' = 9%Q
          ∧ zOf g' 11 = Some 7%Q ∧ zOf g' 12 = Some 1%Q.
Proof. split; [by vm_compute|]. eexists. split; [by vm_compute|]. repeat split; by vm_compute. Qed.

(** [maxChildsZ] starts its maximum at [qreal_min], a positive number: it
    is the maximum of the children's z only when one of them is at least
    that large. *)
Lemma maxChildsZ_children l (its : gmap nat QQuickItem) m h :
  let r := foldl (λ '(maxZ, hasChild) childItem,
                    match its !! childItem with
                    | Some c => (std_max maxZ (z c), true)
                    | None => (maxZ, hasChild)
                    end) (m, h) l in
  (m <= r.1)%Q
  ∧ (∀ ch c, ch ∈ l → its !! ch = Some c → (z c <= r.1)%Q)
  ∧ (r.1 = m ∨ ∃ ch c, ch ∈ l ∧ its !! ch = Some c ∧ r.1 = z c).
Proof.
  revert m h. induction l as [|a l IH]; intros m h; simpl.
  - split; [lra|]. split; [|by left]. intros ch c Hin. by apply elem_of_nil in Hin.
  - destruct (its !! a) as [c|] eqn:Ea.
    + specialize (IH (std_max m (z c)) true). cbv zeta in IH.
      destruct IH as (I1 & I2 & I3).
      assert ((m <= std_max m (z c))%Q ∧ (z c <= std_max m (z c))%Q) as [Hm Hz].
      { unfold std_max. destruct (Qltb m (z c)) eqn:E.
        - apply Qltb_lt in E. split; lra.
        - apply Qltb_ge in E. split; lra. }
      split; [lra|]. split.
      * intros ch c' [->|Hin]%elem_of_cons Hc'; [|by eapply I2].
        simplify_eq. lra.
      * destruct I3 as [I3|(ch & c' & ? & ? & ?)].
        -- rewrite I3. unfold std_max. destruct (Qltb m (z c)); [|by left].
           right. exists a, c. split; [by left|done].
        -- right. exists ch, c'. split; [by right|done].
    + specialize (IH m h). cbv zeta in IH. destruct IH as (I1 & I2 & I3).
      split; [done|]. split.
      * intros ch c' [->|Hin]%elem_of_cons Hc'; [congruence|by eapply I2].
      * destruct I3 as [I3|(ch & c' & ? & ? & ?)]; [by left|].
        right. exists ch, c'. split; [by right|done].
Qed.

Example maxChildsZ_nonpositive_children :
  let its : gmap nat QQuickItem :=
    {[ 1%nat := mkItem QQuickItemClass None None false None 0%Q 0%Q 0%Q None [2%nat; 3%nat];
       2%nat := mkItem NodeItemClass None None false None 0%Q 0%Q (-5)%Q (Some 1%nat) [];
       3%nat := mkItem NodeItemClass None None false None 0%Q 0%Q (-3)%Q (Some 1%nat) [] ]} in
  maxChildsZ (Some 1%nat) (with_items its nonVisualGraph) = qreal_min.
Proof. by vm_compute. Qed.

(** ** Alignment *)

(** With fewer than two items every alignment returns at once. *)
Lemma align_fewer_than_two items_ g :
  (length items_ ≤ 1)%nat →
  alignLeft items_ g = g ∧ alignRight items_ g = g.
Proof.
  intros H. unfold alignLeft, alignRight.
  by rewrite (proj2 (Nat.leb_le _ _) H).
Qed.








(** The scenarios of the specification. *)
Example alignLeft_scenario :
  xOf (alignLeft [0; 1; 2]%nat (boundsGraph [(10, 1); (30, 1); (5, 1)]%Q)) <$> [0; 1; 2]%nat
  = [Some 5%Q; Some 5%Q; Some 5%Q].
Proof. by vm_compute. Qed.

Example alignRight_scenario :
  let g := alignRight [0; 1]%nat (boundsGraph [(0, 10); (5, 20)]%Q) in
  xOf g <$> [0; 1]%nat = [Some 15%Q; Some 5%Q]
  ∧ rightOf g <$> [0; 1]%nat = [Some 25%Q; Some 25%Q].
Proof. by vm_compute. Qed.

(** C7, at the failing input: two items left of the origin, with
    (x, width) = (-100, 10) and (-50, 20).  Their maximum right edge is
    -30; [alignRight] moves both right edges to [qreal_min], the positive
    constant its maximum starts from. *)
Theorem alignRight_negative_right_edges :
  let g := boundsGraph [(-100, 10); (-50, 20)]%Q in
  let g' := alignRight [0; 1]%nat g in
  rightOf g <$> [0; 1]%nat = [Some (-90)%Q; Some (-30)%Q]
  ∧ maxRightOf [0; 1]%nat g = qreal_min
  ∧ xOf g' <$> [0; 1]%nat = [Some (qreal_min - 10)%Q; Some (qreal_min - 20)%Q]
  ∧ (∀ i r, i ∈ [0; 1]%nat → rightOf g' i = Some r → (r == qreal_min)%Q ∧ ¬ (r == -30)%Q).
Proof.
  cbv zeta. split; [by vm_compute|]. split; [by vm_compute|]. split; [by vm_compute|].
  intros i r Hi Hr.
  assert (Qeq_bool r qreal_min = true ∧ Qeq_bool r (-30) = false) as [H1 H2].
  { apply elem_of_cons in Hi as [->|Hi]; [|apply list_elem_of_singleton in Hi as ->];
      vm_compute in Hr; injection Hr as <-; split; by vm_compute. }
  split; [by apply Qeq_bool_iff|]. by apply Qeq_bool_neq.
Qed.

(** ** Topology walks *)

(** *** Loops *)

Lemma forEach_nil {A S} (body : A → S → option S) s : forEach body [] s = Some s.
Proof. done. Qed.

Lemma forEach_None {A S} (body : A → S → option S) l :
  foldl (λ acc a, acc ≫= body a) None l = None.
Proof. by induction l. Qed.

Lemma forEach_cons {A S} (body : A → S → option S) a l s :
  forEach body (a :: l) s = body a s ≫= forEach body l.
Proof.
  unfold forEach. simpl. destruct (body a s); simpl; [done|apply forEach_None].
Qed.

Lemma forEach_app {A S} (body : A → S → option S) l1 l2 s :
  forEach body (l1 ++ l2) s = forEach body l1 s ≫= forEach body l2.
Proof.
  revert s. induction l1 as [|a l1 IH]; intros s; [done|].
  simpl. rewrite !forEach_cons. destruct (body a s); simpl; [apply IH|done].
Qed.

Lemma forEach_fmap {A B S} (f : A → B) (body : B → S → option S) l s :
  forEach body (f <$> l) s = forEach (λ a, body (f a)) l s.
Proof.
  revert s. induction l as [|a l IH]; intros s; [done|].
  simpl. rewrite !forEach_cons. destruct (body (f a) s); simpl; [apply IH|done].
Qed.

Lemma forEach_ext {A S} (body body' : A → S → option S) l s :
  (∀ a s, body a s = body' a s) → forEach body l s = forEach body' l s.
Proof.
  intros H. revert s. induction l as [|a l IH]; intros s; [done|].
  rewrite !forEach_cons, H. destruct (body' a s); simpl; [apply IH|done].
Qed.

(** *** The two recursive functions are instances of [walk] *)

Lemma collectDfsRec_walk fuel g collectGroup node w :
  collectDfsRec fuel g collectGroup node w
  = walk (descendantTargets g collectGroup) fuel node w.
Proof.
  revert node w. induction fuel as [|fuel IH]; intros node w; [done|].
  simpl. destruct node as [n|]; [|done]. case_decide; [done|].
  destruct (nodes g !! n) as [obj|] eqn:E.
  2: { replace (descendantTargets g collectGroup n) with (@nil (option nat)); [done|].
       unfold descendantTargets. by rewrite E. }
  replace (descendantTargets g collectGroup n)
    with ((if collectGroup && isGroup obj then lock g <$> get_nodes obj else [])
          ++ (lock g <$> get_out_nodes obj))
    by (unfold descendantTargets; by rewrite E).
  rewrite forEach_app.
  destruct (collectGroup && isGroup obj).
  - rewrite forEach_fmap. rewrite (forEach_ext _ _ _ _ (λ a s, IH (lock g a) s)).
    destruct (forEach _ (get_nodes obj) _); simpl; [|done].
    rewrite forEach_fmap. apply forEach_ext. intros a s. apply IH.
  - simpl. rewrite forEach_fmap. apply forEach_ext. intros a s. apply IH.
Qed.

Lemma collectAncestorsDfsRec_walk fuel g collectGroup node w :
  collectAncestorsDfsRec fuel g collectGroup node w
  = walk (ancestorTargets g collectGroup) fuel node w.
Proof.
  revert node w. induction fuel as [|fuel IH]; intros node w; [done|].
  simpl. destruct node as [n|]; [|done]. case_decide; [done|].
  destruct (nodes g !! n) as [obj|] eqn:E.
  2: { replace (ancestorTargets g collectGroup n) with (@nil (option nat)); [done|].
       unfold ancestorTargets. by rewrite E. }
  replace (ancestorTargets g collectGroup n)
    with ((if collectGroup && isGroup obj then lock g <$> get_nodes obj else [])
          ++ [getGroupOf g n] ++ (lock g <$> get_in_nodes obj))
    by (unfold ancestorTargets; by rewrite E).
  rewrite !forEach_app.
  assert (∀ w2, (collectAncestorsDfsRec fuel g collectGroup (getGroupOf g n) w2
                   ≫= forEach (λ inNode, collectAncestorsDfsRec fuel g collectGroup
                                            (lock g inNode)) (get_in_nodes obj))
                = forEach (walk (ancestorTargets g collectGroup) fuel)
                          (getGroupOf g n :: (lock g <$> get_in_nodes obj)) w2) as Htail.
  { intros w2. rewrite forEach_cons, IH.
    destruct (walk _ fuel (getGroupOf g n) w2); simpl; [|done].
    rewrite forEach_fmap. apply forEach_ext. intros a s. apply IH. }
  destruct (collectGroup && isGroup obj).
  - rewrite forEach_fmap. rewrite (forEach_ext _ _ _ _ (λ a s, IH (lock g a) s)).
    destruct (forEach _ (get_nodes obj) _); simpl; [apply Htail|done].
  - simpl. apply Htail.
Qed.

(** *** What a walk does *)

Section Walk.
Variable targets : nat → list (option nat).

Lemma walked_refl w : walked targets w w.
Proof.
  exists []. rewrite app_nil_r. repeat split; try done.
  - set_solver.
  - constructor.
  - intros x Hx. by apply elem_of_nil in Hx.
  - intros x m Hx. by apply elem_of_nil in Hx.
Qed.

Lemma walked_marks w w' : walked targets w w' → w.1 ⊆ w'.1.
Proof. intros (new & _ & -> & _). set_solver. Qed.

Lemma walked_trans w1 w2 w3 :
  walked targets w1 w2 → walked targets w2 w3 → walked targets w1 w3.
Proof.
  intros (new1 & Ho1 & Hm1 & Hd1 & Hf1 & Hc1) (new2 & Ho2 & Hm2 & Hd2 & Hf2 & Hc2).
  exists (new1 ++ new2). repeat split.
  - by rewrite Ho2, Ho1, app_assoc.
  - rewrite Hm2, Hm1, list_to_set_app_L. set_solver.
  - apply NoDup_app. repeat split; try done.
    intros x Hx1 Hx2. apply (Hf2 x Hx2). rewrite Hm1. set_solver.
  - intros x [Hx|Hx]%elem_of_app; [by apply Hf1|].
    intros Hw. apply (Hf2 x Hx). rewrite Hm1. set_solver.
  - intros x m [Hx|Hx]%elem_of_app Hm; [|by eapply Hc2].
    rewrite Hm2. apply elem_of_union_l. by eapply Hc1.
Qed.

Lemma forEach_walked (body : option nat → Walk → option Walk) l s s' :
  (∀ a s s', a ∈ l → body a s = Some s' →
     walked targets s s' ∧ ∀ m, a = Some m → m ∈ s'.1) →
  forEach body l s = Some s' →
  walked targets s s' ∧ ∀ m, Some m ∈ l → m ∈ s'.1.
Proof.
  revert s. induction l as [|a l IH]; intros s Hbody H.
  - injection H as <-. split; [apply walked_refl|].
    intros m Hm. by apply elem_of_nil in Hm.
  - rewrite forEach_cons in H. destruct (body a s) as [s1|] eqn:E; [|done].
    simpl in H. destruct (Hbody a s s1) as [Hw1 Ha]; [by left|done|].
    destruct (IH s1) as [Hw2 Hl]; [|done|].
    { intros a' t t' Hin. apply Hbody. by right. }
    split; [by eapply walked_trans|].
    intros m [[= <-]|Hin]%elem_of_cons; [|by apply Hl].
    by apply (walked_marks _ _ Hw2), Ha.
Qed.

(** A call of the recursive function on a marked node or on a null
    pointer changes nothing; on an unmarked node it appends the node
    first, behind what the output held, then what the walk from the
    node finds. *)
Lemma walk_walked fuel node w w' :
  walk targets fuel node w = Some w' →
  walked targets w w'
  ∧ (∀ n, node = Some n → n ∈ w'.1)
  ∧ (∀ n, node = Some n → n ∉ w.1 → ∃ rest, w'.2 = w.2 ++ n :: rest)
  ∧ (∀ n, node = Some n → n ∈ w.1 → w' = w)
  ∧ (node = None → w' = w).
Proof.
  revert node w w'. induction fuel as [|fuel IH]; intros node w w' H; [done|].
  simpl in H. destruct node as [n|].
  2: { injection H as <-. split; [apply walked_refl|]. done. }
  destruct (decide (n ∈ w.1)) as [Hin|Hnot].
  { injection H as <-. split; [apply walked_refl|].
    split; [by intros ? [= <-]|]. split; [by intros ? [= <-]|]. done. }
  apply forEach_walked in H as [(new & Ho & Hm & Hd & Hf & Hc) Htargets].
  2: { intros a s s' _ Hs. destruct (IH a s s' Hs) as (? & ? & _). done. }
  simpl in *. split; [|split; [|split; [|split; [|done]]]].
  - exists (n :: new). repeat split.
    + by rewrite Ho, <- app_assoc.
    + rewrite Hm. simpl. set_solver.
    + constructor; [|done]. intros Hn. apply (Hf n Hn). set_solver.
    + intros x [->|Hx]%elem_of_cons; [done|].
      intros Hw. apply (Hf x Hx). set_solver.
    + intros x m [->|Hx]%elem_of_cons Hxm; [by apply Htargets|by eapply Hc].
  - intros ? [= <-]. rewrite Hm. set_solver.
  - intros ? [= <-] _. exists new. by rewrite Ho, <- app_assoc.
  - intros ? [= <-] ?. done.
Qed.

(** More fuel does not change the result. *)
Lemma forEach_mono {A S} (body body' : A → S → option S) l s r :
  (∀ a s r, body a s = Some r → body' a s = Some r) →
  forEach body l s = Some r → forEach body' l s = Some r.
Proof.
  intros Hb. revert s. induction l as [|a l IH]; intros s H; [done|].
  rewrite forEach_cons in *. destruct (body a s) as [s1|] eqn:E; [|done].
  rewrite (Hb _ _ _ E). simpl in *. by apply IH.
Qed.

Lemma walk_fuel_mono fuel fuel' node w r :
  (fuel ≤ fuel')%nat →
  walk targets fuel node w = Some r → walk targets fuel' node w = Some r.
Proof.
  revert fuel' node w r. induction fuel as [|fuel IH]; intros fuel' node w r Hle H; [done|].
  destruct fuel' as [|fuel']; [lia|]. simpl in *.
  destruct node as [n|]; [|done]. case_decide; [done|].
  eapply forEach_mono; [|exact H]. intros a s r'. apply IH. lia.
Qed.

(** The walk returns when the fuel exceeds the number of unmarked nodes
    it can reach. *)
Variable U : gset nat.
Hypothesis targets_in_U : ∀ n m, Some m ∈ targets n → m ∈ U.

Lemma forEach_returns (body : option nat → Walk → option Walk) (k : nat) l s :
  (∀ a s, a ∈ l → (size (U ∖ s.1) < k)%nat →
     ∃ s', body a s = Some s' ∧ s.1 ⊆ s'.1) →
  (size (U ∖ s.1) < k)%nat →
  ∃ s', forEach body l s = Some s' ∧ s.1 ⊆ s'.1.
Proof.
  revert s. induction l as [|a l IH]; intros s Hbody Hs.
  - by exists s.
  - destruct (Hbody a s) as (s1 & E & Hsub); [by left|done|].
    destruct (IH s1) as (s' & E' & Hsub').
    { intros a' t Hin. apply Hbody. by right. }
    { eapply Nat.le_lt_trans; [|exact Hs]. apply subseteq_size. set_solver. }
    exists s'. rewrite forEach_cons, E. split; [done|]. set_solver.
Qed.

Lemma walk_returns fuel node w :
  (∀ n, node = Some n → n ∈ U) →
  (size (U ∖ w.1) < fuel)%nat →
  ∃ w', walk targets fuel node w = Some w' ∧ w.1 ⊆ w'.1.
Proof.
  revert node w. induction fuel as [|fuel IH]; intros node w Hnode Hsize; [lia|].
  simpl. destruct node as [n|]; [|by exists w].
  case_decide as Hin; [by exists w|].
  assert (size (U ∖ ({[n]} ∪ w.1)) < size (U ∖ w.1))%nat as Hlt.
  { apply subset_size. specialize (Hnode n eq_refl). set_solver. }
  destruct (forEach_returns (walk targets fuel) fuel (targets n)
              ({[n]} ∪ w.1, w.2 ++ [n])) as (w' & E & Hsub).
  - intros a s Ha Hs. apply IH; [|done]. intros m ->. by eapply targets_in_U.
  - simpl. lia.
  - exists w'. split; [done|]. simpl in Hsub. set_solver.
Qed.
End Walk.

(** *** The walks of the graph *)

Lemma lock_Some g a m : lock g a = Some m ↔ m = a ∧ is_Some (nodes g !! a).
Proof. unfold lock. case_decide; naive_solver. Qed.

Lemma getGroupOf_dom g n gr : getGroupOf g n = Some gr → is_Some (nodes g !! gr).
Proof.
  unfold getGroupOf. destruct ((nodes g !! n) ≫= get_group) as [gr'|]; [|done].
  simpl. case_decide; naive_solver.
Qed.

Lemma elem_of_lock_fmap g m (l : list nat) :
  Some m ∈ lock g <$> l ↔ m ∈ l ∧ is_Some (nodes g !! m).
Proof.
  rewrite list_elem_of_fmap. split.
  - intros (a & Ha & Hin). symmetry in Ha. apply lock_Some in Ha as [-> ?]. done.
  - intros [Hin Hlive]. exists m. split; [|done]. symmetry. by apply lock_Some.
Qed.

Lemma descendantTargets_dom g collectGroup n m :
  Some m ∈ descendantTargets g collectGroup n → m ∈ dom (nodes g).
Proof.
  unfold descendantTargets. destruct (nodes g !! n) as [obj|]; [|by intros ?%elem_of_nil].
  rewrite elem_of_dom. intros [H|H]%elem_of_app.
  - destruct (collectGroup && isGroup obj); [|by apply elem_of_nil in H].
    by apply elem_of_lock_fmap in H as [_ ?].
  - by apply elem_of_lock_fmap in H as [_ ?].
Qed.

Lemma ancestorTargets_dom g collectGroup n m :
  Some m ∈ ancestorTargets g collectGroup n → m ∈ dom (nodes g).
Proof.
  unfold ancestorTargets. destruct (nodes g !! n) as [obj|]; [|by intros ?%elem_of_nil].
  rewrite elem_of_dom. intros [H|[H|H]%elem_of_cons]%elem_of_app.
  - destruct (collectGroup && isGroup obj); [|by apply elem_of_nil in H].
    by apply elem_of_lock_fmap in H as [_ ?].
  - symmetry in H. by apply getGroupOf_dom in H.
  - by apply elem_of_lock_fmap in H as [_ ?].
Qed.

(** The loop of a public function over the targets of its start node,
    from the empty state. *)
Lemma forEach_walk_top (targets : nat → list (option nat)) (g : Graph)
    (l : list (option nat)) :
  (∀ n m, Some m ∈ targets n → m ∈ dom (nodes g)) →
  (∀ m, Some m ∈ l → m ∈ dom (nodes g)) →
  ∃ w' : Walk,
    (∀ fuel, (walkFuel g ≤ fuel)%nat → forEach (walk targets fuel) l (∅, []) = Some w')
    ∧ NoDup w'.2
    ∧ (∀ n, n ∈ w'.1 ↔ n ∈ w'.2)
    ∧ (∀ m, Some m ∈ l → m ∈ w'.2)
    ∧ (∀ x m, x ∈ w'.2 → Some m ∈ targets x → m ∈ w'.2).
Proof.
  intros Htargets Hl.
  destruct (forEach_returns targets (dom (nodes g)) Htargets
              (walk targets (walkFuel g)) (walkFuel g) l (∅, []))
    as (w' & E & _).
  { intros a s Ha Hs. apply (walk_returns targets (dom (nodes g))); try done.
    intros m ->. by apply Hl. }
  { simpl. rewrite difference_empty_L, size_dom. unfold walkFuel. lia. }
  exists w'.
  destruct (forEach_walked targets _ _ _ _
              (λ a s s' _ Hs, let H := walk_walked targets _ a s s' Hs in
                              conj (proj1 H) (proj1 (proj2 H))) E)
    as [(new & Ho & Hm & Hd & Hf & Hc) Hin].
  simpl in Ho, Hm. rewrite union_empty_l_L in Hm.
  assert (∀ n, n ∈ w'.1 ↔ n ∈ w'.2) as Hiff.
  { intros n. rewrite Hm, Ho. set_solver. }
  split; [|split; [|split; [|split]]].
  - intros fuel Hfuel. eapply forEach_mono; [|exact E].
    intros a s r. by apply walk_fuel_mono.
  - by rewrite Ho.
  - exact Hiff.
  - intros m Hm'. apply Hiff. by apply Hin.
  - intros x m Hx Hxm. apply Hiff. rewrite Ho in Hx. by eapply Hc.
Qed.

Lemma collectDfsWalk_walk fuel g node collectGroup :
  collectDfsWalk fuel g node collectGroup
  = forEach (walk (descendantTargets g collectGroup) fuel)
            (descendantTargets g collectGroup node) (∅, []).
Proof.
  unfold collectDfsWalk.
  destruct (nodes g !! node) as [obj|] eqn:E.
  2: { replace (descendantTargets g collectGroup node) with (@nil (option nat)); [done|].
       unfold descendantTargets. by rewrite E. }
  replace (descendantTargets g collectGroup node)
    with ((if collectGroup && isGroup obj then lock g <$> get_nodes obj else [])
          ++ (lock g <$> get_out_nodes obj))
    by (unfold descendantTargets; by rewrite E).
  rewrite forEach_app.
  destruct (collectGroup && isGroup obj).
  - rewrite forEach_fmap.
    rewrite (forEach_ext _ _ _ _ (λ a s, collectDfsRec_walk fuel g collectGroup (lock g a) s)).
    destruct (forEach _ (get_nodes obj) _); simpl; [|done].
    rewrite forEach_fmap. apply forEach_ext. intros a s. apply collectDfsRec_walk.
  - simpl. rewrite forEach_fmap. apply forEach_ext. intros a s. apply collectDfsRec_walk.
Qed.

Lemma collectAncestorsDfsWalk_walk fuel g node collectGroup :
  collectAncestorsDfsWalk fuel g node collectGroup
  = forEach (walk (ancestorTargets g collectGroup) fuel)
            (ancestorStartTargets g collectGroup node) (∅, []).
Proof.
  unfold collectAncestorsDfsWalk, ancestorStartTargets.
  destruct (nodes g !! node) as [obj|] eqn:E; [|done].
  rewrite forEach_app.
  destruct (collectGroup && isGroup obj).
  - rewrite forEach_fmap.
    rewrite (forEach_ext _ _ _ _
               (λ a s, collectAncestorsDfsRec_walk fuel g collectGroup (lock g a) s)).
    destruct (forEach _ (get_nodes obj) _); simpl; [|done].
    rewrite forEach_fmap. apply forEach_ext. intros a s. apply collectAncestorsDfsRec_walk.
  - simpl. rewrite forEach_fmap. apply forEach_ext. intros a s.
    apply collectAncestorsDfsRec_walk.
Qed.


(** The cycle A -> B -> A of the specification, walked from A: B, then A,
    each once. *)
Example collectDfs_cycle :
  collectDfs (walkFuel cycleGraph) cycleGraph 1 false = Some [2%nat; 1%nat]
  ∧ collectDfs (walkFuel cycleGraph) cycleGraph 1 true = Some [2%nat; 1%nat].
Proof. split; by vm_compute. Qed.



(** A walk that reaches a grouped node does collect the group: in
    [nestedGraph] with an edge from node 2 to node 1, the ancestors of
    node 1 are node 2, its group 4 and the group 3 that owns group 4. *)
Example collectAncestorsDfs_groups :
  let ns := <[1%nat := mkNode false (Some 11%nat) (Some 3%nat) [2%nat] [] []]>
              (<[2%nat := mkNode false (Some 12%nat) (Some 4%nat) [] [1%nat] []]>
                 (nodes nestedGraph)) in
  let g := with_nodes ns nestedGraph in
  collectAncestorsDfs (walkFuel g) g 1 false = Some [2%nat; 4%nat; 3%nat].
Proof. by vm_compute. Qed.

(** ** Selection: further properties *)

(** What an update of single fields leaves alone, for any observation [F]
    of an item. *)
Lemma alter_observe {A} (F : QQuickItem → A) (f : QQuickItem → QQuickItem) k
    (m : gmap nat QQuickItem) j :
  (∀ it, F (f it) = F it) → F <$> (alter f k m !! j) = F <$> (m !! j).
Proof.
  intros Hf. rewrite lookup_alter. case_decide; [subst|done].
  destruct (m !! j); [|done]. simpl. by rewrite Hf.
Qed.

Lemma reparent_observe {A} (F : QQuickItem → A) i p (its : gmap nat QQuickItem) j :
  (∀ it q, F (set_parent q it) = F it) → (∀ it l, F (set_child_items l it) = F it) →
  F <$> (reparent i p its !! j) = F <$> (its !! j).
Proof.
  intros Hp Hc. unfold reparent. destruct (its !! i) as [it|]; [|done].
  destruct p as [new|], (parentItem it) as [old|]; rewrite ?alter_observe; done.
Qed.

Lemma selectionTarget_blind : selectionBlind selectionTarget.
Proof. repeat split. Qed.

Lemma createItemFromComponent_observe {A} (F : QQuickItem → A) c g j :
  selectionBlind F → is_Some (items g !! j) →
  F <$> items (createItemFromComponent c g).2 !! j = F <$> items g !! j.
Proof.
  intros (Hp & Hc & _) Hj. unfold createItemFromComponent.
  destruct c as [c|]; [|done].
  destruct (isReady c), (qmlContext g), (beginCreate c) as [cls|]; simpl; try done.
  destruct (isErrorAfterBegin c); simpl; [done|].
  assert (fresh (dom (items g)) ≠ j) as Hne.
  { intros <-. apply elem_of_dom in Hj. by apply is_fresh in Hj. }
  destruct (isErrorAfterComplete c); simpl.
  - by rewrite lookup_insert_ne.
  - rewrite reparent_observe by done. by rewrite lookup_insert_ne.
Qed.

Lemma createSelectionItem_observe {A} (F : QQuickItem → A) parent g j :
  selectionBlind F → is_Some (items g !! j) →
  F <$> items (createSelectionItem parent g).2 !! j = F <$> items g !! j.
Proof.
  intros HF Hj. unfold createSelectionItem.
  pose proof (createItemFromComponent_observe F (selectionDelegate g) g j HF Hj) as H.
  destruct (createItemFromComponent (selectionDelegate g) g) as [[s|] g1]; simpl in *; [|done].
  destruct parent as [p|]; simpl; [|done].
  destruct HF as (Hp & Hc & Hz & _).
  rewrite alter_observe by done. by rewrite reparent_observe.
Qed.

Lemma setSelected_observe {A} (F : QQuickItem → A) i b g j :
  selectionBlind F →
  F <$> items (setSelected i b g) !! j = F <$> items g !! j.
Proof.
  intros (_ & _ & _ & _ & Hf). unfold setSelected. simpl.
  rewrite alter_observe by done. destruct b; [done|].
  by destruct (removeFromSelection_frame i g) as (_ & -> & _).
Qed.

(** What [addToSelectionImpl] does to the two vectors, with or without a
    visual item. *)
Lemma addToSelectionImpl_vectors P p g :
  selectedPrimitives P (addToSelectionImpl P p g)
  = (if contains (selectedPrimitives P g) p then selectedPrimitives P g
     else selectedPrimitives P g ++ [p])
  ∧ selectedPrimitives (otherPrimitive P) (addToSelectionImpl P p g)
    = selectedPrimitives (otherPrimitive P) g
  ∧ sameTopology g (addToSelectionImpl P p g).
Proof.
  unfold addToSelectionImpl. destruct (contains (selectedPrimitives P g) p) eqn:Hc; [done|].
  set (g1 := with_selectedPrimitives P (selectedPrimitives P g ++ [p]) g).
  assert (selectedPrimitives P g1 = selectedPrimitives P g ++ [p]
          ∧ selectedPrimitives (otherPrimitive P) g1 = selectedPrimitives (otherPrimitive P) g
          ∧ sameTopology g g1) as (H1 & H2 & H3).
  { subst g1. rewrite selectedPrimitives_with, otherPrimitives_with.
    split; [done|]. split; [done|]. apply sameTopology_with_selected. }
  destruct (resolveItem g1 p) as [[i it]|]; [|done].
  assert (∃ g2, (match getSelectionItem it with
                 | None => let '(s, g') := createSelectionItem (Some i) g1 in
                           with_items (alter (set_selection_item s) i (items g')) g'
                 | Some _ => g1
                 end) = g2
                ∧ sameTopology g1 g2
                ∧ getSelectedNodes g2 = getSelectedNodes g1
                ∧ getSelectedGroups g2 = getSelectedGroups g1) as (g2 & -> & Hs2 & Hn2 & Hg2).
  { destruct (getSelectionItem it); [by eexists|].
    destruct (createSelectionItem_frame (Some i) g1) as (Hs & Hn & Hg).
    destruct (createSelectionItem (Some i) g1) as [s g']; simpl in *.
    eexists; split; [done|]. split; [|done].
    eapply sameTopology_trans; [exact Hs|]. apply sameTopology_alter. }
  split; [|split].
  - rewrite (selected_frame_lists P g1 (setSelected i true g2)) by done. done.
  - rewrite (selected_frame_lists _ g1 (setSelected i true g2)) by done. done.
  - eapply sameTopology_trans; [exact H3|].
    eapply sameTopology_trans; [exact Hs2|]. apply setSelected_sameTopology.
Qed.

Lemma addToSelectionImpl_observe {A} (F : QQuickItem → A) P p g j :
  selectionBlind F → is_Some (items g !! j) →
  F <$> items (addToSelectionImpl P p g) !! j = F <$> items g !! j.
Proof.
  intros HF Hj. unfold addToSelectionImpl.
  destruct (contains (selectedPrimitives P g) p); [done|].
  set (g1 := with_selectedPrimitives P (selectedPrimitives P g ++ [p]) g).
  assert (items g1 = items g) as Hi by (by destruct P).
  destruct (resolveItem g1 p) as [[i it]|]; [|by rewrite Hi].
  rewrite setSelected_observe by done.
  destruct (getSelectionItem it); [by rewrite Hi|].
  pose proof (createSelectionItem_observe F (Some i) g1 j HF) as H.
  rewrite Hi in H. specialize (H Hj).
  destruct (createSelectionItem (Some i) g1) as [s g']; simpl in *.
  destruct HF as (_ & _ & _ & Hs & _). by rewrite alter_observe.
Qed.

Lemma removeAll_NoDup p l : NoDup l → NoDup (removeAll p l).
Proof. apply NoDup_filter. Qed.

Lemma removeAll_id p l : p ∉ l → removeAll p l = l.
Proof.
  unfold removeAll. induction l as [|a l IH]; intros Hp; [done|].
  rewrite filter_cons. apply not_elem_of_cons in Hp as [Hne Hp].
  rewrite decide_True by done. by rewrite IH.
Qed.

Lemma removeAll_app_new p l : p ∉ l → removeAll p (l ++ [p]) = l.
Proof.
  intros Hp. unfold removeAll. rewrite filter_app.
  fold (removeAll p l). rewrite removeAll_id by done.
  rewrite filter_cons, decide_False by (intros H; by apply H). simpl.
  by rewrite app_nil_r.
Qed.

Lemma distinctSelection_primitives g :
  distinctSelection g ↔
  ∀ P, NoDup (selectedPrimitives P g).
Proof.
  split.
  - intros [? ?] []; done.
  - intros H. split; [apply (H qan_Node)|apply (H qan_Group)].
Qed.

Lemma removeFromSelection_distinct i g :
  distinctSelection g → distinctSelection (removeFromSelection i g).
Proof.
  intros [Hn Hg]. unfold removeFromSelection. destruct (items g !! i) as [it|]; [|done].
  destruct (if isNodeItem it then getNode it else None).
  - split; [by apply removeAll_NoDup|done].
  - destruct (if isGroupItem it then getGroup it else None); [|done].
    split; [done|by apply removeAll_NoDup].
Qed.

Lemma setSelected_distinct i b g :
  distinctSelection g → distinctSelection (setSelected i b g).
Proof.
  intros H. unfold setSelected, distinctSelection. simpl.
  destruct b; [done|]. by apply removeFromSelection_distinct.
Qed.

Lemma addToSelectionImpl_distinct P p g :
  distinctSelection g → distinctSelection (addToSelectionImpl P p g).
Proof.
  rewrite !distinctSelection_primitives. intros H Q.
  destruct (addToSelectionImpl_vectors P p g) as (H1 & H2 & _).
  assert (NoDup (selectedPrimitives P (addToSelectionImpl P p g))) as HP.
  { rewrite H1. unfold contains. case_bool_decide as Hin; [apply H|].
    apply NoDup_app. split; [apply H|]. split; [|apply NoDup_singleton].
    intros x Hx ->%list_elem_of_singleton. done. }
  destruct P, Q; try done; simpl in *; rewrite H2; apply (H qan_Group) || apply (H qan_Node).
Qed.

Lemma clearSelection_distinct g : distinctSelection (clearSelection g).
Proof.
  destruct (clearSelection_spec g) as (Hn & Hg & _).
  unfold distinctSelection. rewrite Hn, Hg. split; apply NoDup_nil_2.
Qed.

(** X1.  The selection vectors are sets: when neither holds an address twice,
    neither does after [selectPrimitive] ([selectNode], [selectGroup]),
    after [setPrimitiveSelected] ([setNodeSelected]), after
    [addToSelection] or after [removeFromSelection], whatever the entity,
    the modifiers, the policy and the state of the items. *)
Theorem selection_vectors_stay_distinct (P : Primitive_t) (p item : nat) (modifiers : Z)
    (selected : bool) (g : Graph) :
  distinctSelection g →
  distinctSelection (selectPrimitive P p modifiers g).2
  ∧ distinctSelection (setPrimitiveSelected P p selected g)
  ∧ distinctSelection (addToSelection P p g)
  ∧ distinctSelection (removeFromSelectionImpl P p g)
  ∧ distinctSelection (removeFromSelection item g).
Proof.
  intros H. split; [|split; [|split; [|split]]].
  - unfold selectPrimitive.
    destruct (getSelectionPolicy g); [done| |];
      (destruct (resolveItem g p) as [[i it]|]; [|done]);
      destruct (getSelected it), (ctrlPressed modifiers); simpl; try done;
      try (by apply setSelected_distinct);
      try (by apply addToSelectionImpl_distinct).
    apply addToSelectionImpl_distinct, clearSelection_distinct.
  - unfold setPrimitiveSelected. destruct (resolveItem g p) as [[i it]|]; [|done].
    destruct selected; [|by apply setSelected_distinct].
    by apply addToSelectionImpl_distinct, setSelected_distinct.
  - by apply addToSelectionImpl_distinct.
  - unfold removeFromSelectionImpl. destruct (contains _ _); [|done].
    apply distinctSelection_primitives. intros Q.
    apply distinctSelection_primitives with (P := Q) in H as HQ.
    apply distinctSelection_primitives with (P := P) in H as HP.
    destruct P, Q; simpl in *; try done; by apply removeAll_NoDup.
  - by apply removeFromSelection_distinct.
Qed.

Lemma selection_vectors_stay_distinct_witness :
  distinctSelection visualGraph
  ∧ distinctSelection (selectPrimitive qan_Node 1 ControlModifier visualGraph).2.
Proof.
  assert (distinctSelection visualGraph) as H by (split; apply NoDup_nil_2).
  split; [exact H|].
  exact (proj1 (selection_vectors_stay_distinct qan_Node 1 11 ControlModifier true
                  visualGraph H)).
Defined.

(** X2.  Programmatic selection does not look at the policy, and it is undone
    by programmatic deselection: [setPrimitiveSelected] with [true] on an
    unselected entity that has an item appends it to its vector and sets
    the flag of its item, under every policy; [setPrimitiveSelected] with
    [false] after that gives both vectors back as they were and clears
    the flag.  The item is assumed to refer back to its entity. *)
Theorem setPrimitiveSelected_round_trip (P : Primitive_t) (p i : nat) (it : QQuickItem)
    (g : Graph) :
  resolveItem g p = Some (i, it) →
  selectionTarget it = Some (P, p) →
  p ∉ selectedPrimitives P g →
  let g1 := setPrimitiveSelected P p true g in
  let g2 := setPrimitiveSelected P p false g1 in
  selectedPrimitives P g1 = selectedPrimitives P g ++ [p]
  ∧ selectedPrimitives (otherPrimitive P) g1 = selectedPrimitives (otherPrimitive P) g
  ∧ flagOf g1 i = Some true
  ∧ selectedPrimitives P g2 = selectedPrimitives P g
  ∧ selectedPrimitives (otherPrimitive P) g2 = selectedPrimitives (otherPrimitive P) g
  ∧ flagOf g2 i = Some false.
Proof.
  intros Hres Htgt Hnot g1 g2.
  pose proof Hres as [Hptr Hit]%resolveItem_Some.
  (* the selecting call *)
  assert (g1 = addToSelectionImpl P p (setSelected i true g)) as Hg1.
  { subst g1. unfold setPrimitiveSelected. by rewrite Hres. }
  set (g0 := setSelected i true g) in Hg1.
  assert (resolveItem g0 p = Some (i, set_selected_flag true it)) as Hres0.
  { apply resolveItem_Some. split; [done|]. by apply setSelected_flag. }
  assert (p ∉ selectedPrimitives P g0) as Hnot0 by (by destruct P).
  destruct (addToSelectionImpl_new P p g0 i _ Hnot0 Hres0)
    as (H1 & H2 & H3 & it1 & Hit1 & Hflag1).
  rewrite <- Hg1 in H1, H2, H3, Hit1.
  assert (selectedPrimitives P g0 = selectedPrimitives P g) as HP0 by (by destruct P).
  assert (selectedPrimitives (otherPrimitive P) g0 = selectedPrimitives (otherPrimitive P) g)
    as HO0 by (by destruct P).
  rewrite HP0 in H1. rewrite HO0 in H2.
  assert (selectionTarget it1 = Some (P, p)) as Htgt1.
  { pose proof (addToSelectionImpl_observe selectionTarget P p g0 i selectionTarget_blind)
      as Hobs.
    rewrite <- Hg1, Hit1 in Hobs.
    pose proof (setSelected_flag i true it g Hit) as Hit0. fold g0 in Hit0.
    rewrite Hit0 in Hobs. specialize (Hobs ltac:(by eexists)). simpl in Hobs.
    injection Hobs as ->. done. }
  assert (resolveItem g1 p = Some (i, it1)) as Hres1.
  { apply resolveItem_Some. split; [|done]. destruct H3 as (Hn & _).
    unfold getItemOf in *. by rewrite Hn. }
  (* the deselecting call *)
  assert (g2 = setSelected i false g1) as Hg2.
  { subst g2. unfold setPrimitiveSelected. by rewrite Hres1. }
  destruct (setSelected_false_target i it1 P p g1 Hit1 Htgt1) as (K1 & K2 & K3 & K4).
  rewrite <- Hg2 in K1, K2, K3, K4.
  split; [done|]. split; [done|]. split; [by unfold flagOf; rewrite Hit1; simpl; rewrite Hflag1|].
  split; [by rewrite K1, H1, removeAll_app_new|]. split; [by rewrite K2|].
  unfold flagOf. by rewrite K4.
Qed.

Lemma setPrimitiveSelected_round_trip_witness :
  let g := with_selectionPolicy NoSelection visualGraph in
  let g1 := setPrimitiveSelected qan_Group 3 true g in
  getSelectedGroups g1 = [3%nat]
  ∧ getSelectedGroups (setPrimitiveSelected qan_Group 3 false g1) = [].
Proof.
  pose proof (setPrimitiveSelected_round_trip qan_Group 3 13 _
                (with_selectionPolicy NoSelection visualGraph)
                eq_refl eq_refl (not_elem_of_nil _)) as H.
  cbv zeta in *. split; [apply H|]. apply H.
Defined.

(** *** Clearing the selection *)

Lemma setSelected_false_flags i g :
  (∀ j, flagOf g j = Some false → flagOf (setSelected i false g) j = Some false)
  ∧ (is_Some (items g !! i) → flagOf (setSelected i false g) i = Some false)
  ∧ (∀ j, is_Some (items g !! j) ↔ is_Some (items (setSelected i false g) !! j))
  ∧ nodes (setSelected i false g) = nodes g.
Proof.
  destruct (removeFromSelection_frame i g) as (Hn & Hi & _).
  unfold flagOf, setSelected. simpl. rewrite Hi. repeat split.
  - intros j. rewrite lookup_alter. case_decide; [subst|done].
    destruct (items g !! j); [|done]. done.
  - intros [it Hit]. by rewrite lookup_alter_eq, Hit.
  - intros [it Hit]. rewrite lookup_alter. case_decide; subst; rewrite Hit; by eexists.
  - rewrite lookup_alter. case_decide; subst; [|done].
    destruct (items g !! j); [by eexists|]. by intros [? ?].
  - done.
Qed.

Lemma deselectAll_flags copy g :
  (∀ j, flagOf g j = Some false → flagOf (deselectAll copy g) j = Some false)
  ∧ (∀ p i it, p ∈ copy → resolveItem g p = Some (i, it) →
       flagOf (deselectAll copy g) i = Some false)
  ∧ (∀ j, is_Some (items g !! j) ↔ is_Some (items (deselectAll copy g) !! j))
  ∧ nodes (deselectAll copy g) = nodes g.
Proof.
  unfold deselectAll. revert g. induction copy as [|q copy IH]; intros g.
  { simpl. repeat split; try done. intros p i it Hp. by apply elem_of_nil in Hp. }
  cbn [foldl].
  set (g1 := match resolveItem g q with Some (i, _) => setSelected i false g | None => g end).
  assert ((∀ j, flagOf g j = Some false → flagOf g1 j = Some false)
          ∧ (∀ i it, resolveItem g q = Some (i, it) → flagOf g1 i = Some false)
          ∧ (∀ j, is_Some (items g !! j) ↔ is_Some (items g1 !! j))
          ∧ nodes g1 = nodes g) as (S1 & S2 & S3 & S4).
  { subst g1. destruct (resolveItem g q) as [[i it]|] eqn:E.
    - destruct (setSelected_false_flags i g) as (F1 & F2 & F3 & F4).
      split; [done|]. split; [|done]. intros ? ? [= <- <-]. apply F2.
      apply resolveItem_Some in E as [_ E]. by eexists.
    - repeat split; done. }
  destruct (IH g1) as (I1 & I2 & I3 & I4).
  split; [|split; [|split]].
  - intros j Hj. by apply I1, S1.
  - intros p i it [->|Hp]%elem_of_cons Hres.
    + apply I1. by eapply S2.
    + apply resolveItem_Some in Hres as [Hptr Hit].
      destruct (proj1 (S3 i)) as [it1 Hit1]; [by eexists|].
      apply (I2 p i it1 Hp). apply resolveItem_Some. split; [|done].
      unfold getItemOf in *. by rewrite S4.
  - intros j. by rewrite S3.
  - by rewrite I4.
Qed.

Lemma nodeRef_blind : selectionBlind (λ it, (isNodeItem it, getNode it)).
Proof. repeat split. Qed.

Lemma deselectAll_groups_kept copy g :
  (∀ q i it, q ∈ copy → resolveItem g q = Some (i, it) →
     isNodeItem it = true ∧ is_Some (getNode it)) →
  getSelectedGroups (deselectAll copy g) = getSelectedGroups g.
Proof.
  unfold deselectAll. revert g. induction copy as [|q copy IH]; intros g H; [done|].
  cbn [foldl]. destruct (resolveItem g q) as [[i it]|] eqn:E.
  2: { apply IH. intros q' i' it' Hq'. apply H. by right. }
  destruct (H q i it) as [Hcls [n Hn]]; [by left|done|].
  pose proof E as [Hptr Hit]%resolveItem_Some.
  rewrite IH.
  - unfold setSelected, removeFromSelection. simpl. by rewrite Hit, Hcls, Hn.
  - intros q' i' it' Hq' Hres'. apply resolveItem_Some in Hres' as [Hptr' Hit'].
    pose proof (setSelected_observe (λ it, (isNodeItem it, getNode it)) i false g i'
                  nodeRef_blind) as Hobs.
    rewrite Hit' in Hobs. destruct (items g !! i') as [it0|] eqn:E0; [|done].
    simpl in Hobs. injection Hobs as -> ->.
    apply (H q' i' it0); [by right|]. apply resolveItem_Some. split; [|done].
    destruct (setSelected_false_flags i g) as (_ & _ & _ & Hn').
    unfold getItemOf in *. by rewrite <- Hn'.
Qed.

(** X3.  [clearSelection] empties both selection vectors and clears the
    selected flag on the item of every node that was selected, and on
    the item of every group that was selected when the items of the
    selected nodes are node items that know a node; it creates and
    destroys no item and leaves the node objects, the policy and [_maxZ]
    alone. *)
Theorem clearSelection_deselects_everything (g : Graph) :
  getSelectedNodes (clearSelection g) = []
  ∧ getSelectedGroups (clearSelection g) = []
  ∧ (∀ p i it, p ∈ getSelectedNodes g → resolveItem g p = Some (i, it) →
       flagOf (clearSelection g) i = Some false)
  ∧ (selectedNodesHaveNodeItems g →
     ∀ p i it, p ∈ getSelectedGroups g → resolveItem g p = Some (i, it) →
       flagOf (clearSelection g) i = Some false)
  ∧ (∀ j, is_Some (items g !! j) ↔ is_Some (items (clearSelection g) !! j))
  ∧ nodes (clearSelection g) = nodes g
  ∧ getSelectionPolicy (clearSelection g) = getSelectionPolicy g
  ∧ getMaxZ (clearSelection g) = getMaxZ g.
Proof.
  destruct (clearSelection_spec g) as (Hn & Hg & Hnodes & Hpol & Hz & _).
  destruct (deselectAll_flags (getSelectedNodes g) g) as (A1 & A2 & A3 & A4).
  pose (g1 := with_selectedNodes [] (deselectAll (getSelectedNodes g) g)).
  destruct (deselectAll_flags (getSelectedGroups g1) g1) as (B1 & B2 & B3 & B4).
  assert (∀ i, flagOf (clearSelection g) i
               = flagOf (deselectAll (getSelectedGroups g1) g1) i) as Hflag by done.
  split; [done|]. split; [done|]. split; [|split; [|split; [|done]]].
  - intros p i it Hp Hres. rewrite Hflag. apply B1.
    change (flagOf (deselectAll (getSelectedNodes g) g) i = Some false). by eapply A2.
  - intros Hwf p i it Hp Hres. rewrite Hflag.
    assert (getSelectedGroups g1 = getSelectedGroups g) as Hkept.
    { subst g1. simpl. apply deselectAll_groups_kept. intros q j jt. apply Hwf. }
    apply resolveItem_Some in Hres as [Hptr Hit].
    destruct (proj1 (A3 i)) as [it1 Hit1]; [by eexists|].
    apply (B2 p i it1); [by rewrite Hkept|]. apply resolveItem_Some. split; [|done].
    unfold getItemOf in *. simpl. by rewrite A4.
  - intros j. rewrite A3. apply (B3 j).
Qed.

(** *** The selection policy *)

Lemma samePolicy_eq a b : samePolicy a b = true ↔ a = b.
Proof. destruct a, b; simpl; split; congruence. Qed.

(** X4.  [setSelectionPolicy] does nothing when the policy is the current one.
    Otherwise it records the policy; a change to [NoSelection] clears the
    selection at once, a change to another policy keeps it.  Once the
    policy is [NoSelection], [selectNode] and [selectGroup] select
    nothing. *)
Theorem setSelectionPolicy_clears_on_NoSelection (policy : SelectionPolicy) (g : Graph) :
  let g' := setSelectionPolicy policy g in
  getSelectionPolicy g' = policy
  ∧ nodes g' = nodes g ∧ getMaxZ g' = getMaxZ g
  ∧ (policy = getSelectionPolicy g → g' = g)
  ∧ (policy ≠ getSelectionPolicy g → policy = NoSelection →
       getSelectedNodes g' = [] ∧ getSelectedGroups g' = [])
  ∧ (policy ≠ getSelectionPolicy g → policy ≠ NoSelection →
       g' = with_selectionPolicy policy g)
  ∧ (policy = NoSelection → ∀ P p modifiers,
       selectPrimitive P p modifiers g' = (false, g')).
Proof.
  cbv zeta. unfold setSelectionPolicy.
  destruct (samePolicy policy (getSelectionPolicy g)) eqn:E.
  - apply samePolicy_eq in E. repeat split; try done.
    intros Hno P p modifiers. apply selectPrimitive_NoSelection. congruence.
  - assert (policy ≠ getSelectionPolicy g) as Hne.
    { intros H. apply samePolicy_eq in H. congruence. }
    destruct (samePolicy policy NoSelection) eqn:E2.
    + apply samePolicy_eq in E2. subst policy.
      destruct (clearSelection_spec (with_selectionPolicy NoSelection g))
        as (Hn & Hg & Hnodes & Hpol & Hz & _).
      repeat split; try done.
      intros _ P p modifiers. by apply selectPrimitive_NoSelection.
    + assert (policy ≠ NoSelection) as Hne2.
      { intros H. apply samePolicy_eq in H. congruence. }
      repeat split; try done.
Qed.

(** ** Stacking: further properties *)

Lemma updateMaxZ_max v g :
  (getMaxZ g <= getMaxZ (updateMaxZ v g))%Q
  ∧ (v <= getMaxZ (updateMaxZ v g))%Q
  ∧ (getMaxZ (updateMaxZ v g) = getMaxZ g ∨ getMaxZ (updateMaxZ v g) = v)
  ∧ items (updateMaxZ v g) = items g.
Proof.
  unfold updateMaxZ. destruct (Qltb (getMaxZ g) v) eqn:E; simpl.
  - apply Qltb_lt in E. repeat split; try lra. by right.
  - apply Qltb_ge in E. repeat split; try lra. by left.
Qed.

(** What [setZ] on one item does to the bound. *)
Lemma setZ_bounded i v m g :
  (∀ j it, items g !! j = Some it → (z it <= m)%Q) → (v <= m)%Q →
  ∀ j it, items (setZ i v g) !! j = Some it → (z it <= m)%Q.
Proof.
  intros Hb Hv j it. unfold setZ. simpl. rewrite lookup_alter.
  case_decide; [subst|by apply Hb].
  destruct (items g !! j) as [it0|] eqn:E; [|done]. simpl. by intros [= <-].
Qed.

Lemma raiseGroupItem_bounded c g gi :
  (getMaxZ g <= getMaxZ (raiseGroupItem c g gi))%Q
  ∧ (zBounded g → zBounded (raiseGroupItem c g gi))
  ∧ nodes (raiseGroupItem c g gi) = nodes g
  ∧ getSelectedNodes (raiseGroupItem c g gi) = getSelectedNodes g
  ∧ getSelectedGroups (raiseGroupItem c g gi) = getSelectedGroups g
  ∧ getContainerItem (raiseGroupItem c g gi) = getContainerItem g.
Proof.
  unfold raiseGroupItem, zBounded.
  destruct (items g !! gi) as [it|]; [|repeat split; auto; lra].
  destruct (parentItem it) as [p|]; [|repeat split; auto; lra].
  case_decide.
  - unfold nextMaxZ. simpl. repeat split; try done; [lra|].
    intros Hb. apply setZ_bounded; [|simpl; lra].
    intros j jt Hj. simpl in *. specialize (Hb j jt Hj). lra.
  - set (m := maxChildsZ (Some p) g).
    destruct (updateMaxZ_max (m + 1)%Q g) as (U1 & U2 & _ & U4).
    repeat split; try (by unfold updateMaxZ; destruct (Qltb _ _)); [done|].
    intros Hb. apply setZ_bounded; [|done].
    intros j jt Hj. rewrite U4 in Hj. specialize (Hb j jt Hj).
    by eapply Qle_trans.
Qed.

Lemma raiseGroupItems_bounded c groups g :
  (getMaxZ g <= getMaxZ (foldl (raiseGroupItem c) g groups))%Q
  ∧ (zBounded g → zBounded (foldl (raiseGroupItem c) g groups))
  ∧ nodes (foldl (raiseGroupItem c) g groups) = nodes g
  ∧ getSelectedNodes (foldl (raiseGroupItem c) g groups) = getSelectedNodes g
  ∧ getSelectedGroups (foldl (raiseGroupItem c) g groups) = getSelectedGroups g
  ∧ getContainerItem (foldl (raiseGroupItem c) g groups) = getContainerItem g.
Proof.
  revert g. induction groups as [|gi groups IH]; intros g.
  { simpl. repeat split; try done. lra. }
  cbn [foldl].
  destruct (raiseGroupItem_bounded c g gi) as (R1 & R2 & R3 & R4 & R5 & R6).
  destruct (IH (raiseGroupItem c g gi)) as (I1 & I2 & I3 & I4 & I5 & I6).
  repeat split; try congruence; [lra|]. intros Hb. by apply I2, R2.
Qed.

(** X8.  [sendToFront] keeps [_maxZ] a high-water mark: it never lowers it, and
    when no item lay above [_maxZ] before the call, none does after it,
    whatever the item and however deep the nesting.  It touches neither
    the node objects nor the selection nor the container. *)
Theorem sendToFront_keeps_high_water_mark (fuel : nat) (item : option nat) (g g' : Graph) :
  sendToFront fuel item g = Some g' →
  (getMaxZ g <= getMaxZ g')%Q
  ∧ (zBounded g → zBounded g')
  ∧ nodes g' = nodes g
  ∧ getSelectedNodes g' = getSelectedNodes g
  ∧ getSelectedGroups g' = getSelectedGroups g
  ∧ getContainerItem g' = getContainerItem g.
Proof.
  assert (∀ g0, g0 = g → (getMaxZ g <= getMaxZ g0)%Q ∧ (zBounded g → zBounded g0)
            ∧ nodes g0 = nodes g ∧ getSelectedNodes g0 = getSelectedNodes g
            ∧ getSelectedGroups g0 = getSelectedGroups g
            ∧ getContainerItem g0 = getContainerItem g) as Hsame.
  { intros ? ->. repeat split; try done. lra. }
  assert (∀ i g0, g0 = setZ i (getMaxZ g + 1)%Q (setMaxZ (getMaxZ g + 1)%Q g) →
            (getMaxZ g <= getMaxZ g0)%Q ∧ (zBounded g → zBounded g0)
            ∧ nodes g0 = nodes g ∧ getSelectedNodes g0 = getSelectedNodes g
            ∧ getSelectedGroups g0 = getSelectedGroups g
            ∧ getContainerItem g0 = getContainerItem g) as Hraise.
  { intros i ? ->. repeat split; try done; [simpl; lra|].
    unfold zBounded. intros Hb. apply setZ_bounded; [|simpl; lra].
    intros j jt Hj. simpl in *. specialize (Hb j jt Hj). lra. }
  unfold sendToFront. intros H.
  destruct item as [i|]; [|apply Hsame; congruence].
  destruct (items g !! i) as [it|]; [|apply Hsame; congruence].
  destruct (isNodeItem it); simpl in H; [|apply Hsame; congruence].
  destruct (getContainerItem g) as [c|] eqn:Ec; [|apply Hsame; congruence].
  destruct (isGroupItem it); simpl in H.
  2: { apply (Hraise i). unfold nextMaxZ in H. simpl in H. congruence. }
  case_decide.
  { apply (Hraise i). unfold nextMaxZ in H. simpl in H. congruence. }
  destruct (collectGroups_rec fuel g i) as [groups|]; [|done].
  simpl in H. injection H as <-. rewrite <- Ec. apply raiseGroupItems_bounded.
Qed.

Lemma sendToFront_keeps_high_water_mark_witness :
  ∃ g', sendToFront (walkFuel nestedGraph) (Some 14%nat) nestedGraph = Some g'
        ∧ (getMaxZ nestedGraph <= getMaxZ g')%Q.
Proof.
  destruct (sendToFront (walkFuel nestedGraph) (Some 14%nat) nestedGraph) as [g'|] eqn:E;
    [|by vm_compute in E].
  exists g'. split; [done|].
  exact (proj1 (sendToFront_keeps_high_water_mark _ _ _ _ E)).
Defined.

Lemma maxChildsZ_flag l (its : gmap nat QQuickItem) m h :
  (foldl (λ '(maxZ, hasChild) childItem,
            match its !! childItem with
            | Some c => (std_max maxZ (z c), true)
            | None => (maxZ, hasChild)
            end) (m, h) l).2
  = h || bool_decide (Exists (λ ch, is_Some (its !! ch)) l).
Proof.
  revert m h. induction l as [|a l IH]; intros m h; cbn [foldl].
  - case_bool_decide as H; [by apply Exists_nil in H|]. cbn. by rewrite orb_false_r.
  - destruct (its !! a) as [c|] eqn:Ea; rewrite IH.
    + cbn. rewrite bool_decide_eq_true_2; [by rewrite orb_true_r|].
      apply Exists_cons. left. by rewrite Ea.
    + f_equal. apply bool_decide_ext. rewrite Exists_cons, Ea. split; [by right|].
      intros [[? ?]|?]; done.
Qed.

(** The cases of [maxChildsZ]: a null item, no child, some child. *)
Lemma maxChildsZ_cases (g : Graph) (i : nat) (it : QQuickItem) :
  items g !! i = Some it →
  maxChildsZ None g = 0%Q
  ∧ ((∀ ch, ch ∈ childItems it → items g !! ch = None) → maxChildsZ (Some i) g = 0%Q)
  ∧ ((∃ ch, ch ∈ childItems it ∧ is_Some (items g !! ch)) →
       (qreal_min <= maxChildsZ (Some i) g)%Q
       ∧ (∀ ch c, ch ∈ childItems it → items g !! ch = Some c →
            (z c <= maxChildsZ (Some i) g)%Q)
       ∧ (maxChildsZ (Some i) g = qreal_min
          ∨ ∃ ch c, ch ∈ childItems it ∧ items g !! ch = Some c
                    ∧ maxChildsZ (Some i) g = z c)).
Proof.
  intros Hi. split; [done|]. unfold maxChildsZ. simpl. rewrite Hi.
  pose proof (maxChildsZ_children (childItems it) (items g) qreal_min false) as Hmax.
  pose proof (maxChildsZ_flag (childItems it) (items g) qreal_min false) as Hflag.
  cbv zeta in Hmax.
  destruct (foldl _ (qreal_min, false) (childItems it)) as [maxZ hasChild].
  simpl in *. destruct Hmax as (H1 & H2 & H3). split.
  - intros Hnone. rewrite Hflag, bool_decide_eq_false_2; [done|].
    intros (ch & Hch & Hl)%Exists_exists. rewrite (Hnone ch Hch) in Hl. by destruct Hl.
  - intros Hsome. rewrite Hflag, bool_decide_eq_true_2 by (by apply Exists_exists). done.
Qed.

(** X9.  [maxChildsZ] is 0 for a null item and for an item without children.
    For an item with children it is at least the z of every child, but
    never below [qreal_min], the positive constant its maximum starts
    from: it is the z of one of the children exactly when that constant
    did not win. *)
Theorem maxChildsZ_bounds (g : Graph) (i : nat) (it : QQuickItem) :
  items g !! i = Some it →
  maxChildsZ None g = 0%Q
  ∧ ((∀ ch, ch ∈ childItems it → items g !! ch = None) → maxChildsZ (Some i) g = 0%Q)
  ∧ ((∃ ch, ch ∈ childItems it ∧ is_Some (items g !! ch)) →
       (qreal_min <= maxChildsZ (Some i) g)%Q
       ∧ (∀ ch c, ch ∈ childItems it → items g !! ch = Some c →
            (z c <= maxChildsZ (Some i) g)%Q)
       ∧ (maxChildsZ (Some i) g = qreal_min
          ∨ ∃ ch c, ch ∈ childItems it ∧ items g !! ch = Some c
                    ∧ maxChildsZ (Some i) g = z c)).
Proof. apply maxChildsZ_cases. Qed.

Lemma maxChildsZ_bounds_witness :
  maxChildsZ (Some 13%nat) nestedGraph = 7%Q
  ∧ (3 <= maxChildsZ (Some 13%nat) nestedGraph)%Q.
Proof.
  destruct (maxChildsZ_bounds nestedGraph 13 _ eq_refl) as (_ & _ & H).
  destruct H as (_ & Hle & _).
  { exists 14%nat. split; [set_solver|by eexists]. }
  split; [by vm_compute|].
  apply (Hle 14%nat _ ltac:(set_solver) eq_refl).
Defined.





(** X10.  [findMaxZ] sets [_maxZ] from the children of the container: no child
    of the container lies above it afterwards, and it is positive as
    soon as the container has a child.  Without a container, or with a
    container without children, [_maxZ] becomes 0.  No item changes. *)
Theorem findMaxZ_covers_container_children (g : Graph) :
  items (findMaxZ g) = items g ∧ nodes (findMaxZ g) = nodes g
  ∧ (getContainerItem g = None → getMaxZ (findMaxZ g) = 0%Q)
  ∧ (∀ c cit, getContainerItem g = Some c → items g !! c = Some cit →
       ((∀ ch, ch ∈ childItems cit → items g !! ch = None) → getMaxZ (findMaxZ g) = 0%Q)
       ∧ (∀ ch chit, ch ∈ childItems cit → items g !! ch = Some chit →
            (z chit <= getMaxZ (findMaxZ g))%Q ∧ (0 < getMaxZ (findMaxZ g))%Q)).
Proof.
  unfold findMaxZ. simpl. split; [done|]. split; [done|]. split.
  - by intros ->.
  - intros c cit -> Hc. destruct (maxChildsZ_cases g c cit Hc) as (_ & H0 & H).
    split; [done|]. intros ch chit Hch Hchit.
    destruct H as (Hmin & Hle & _); [exists ch; split; [done|by eexists]|].
    split; [by eapply Hle|].
    eapply Qlt_le_trans; [|exact Hmin]. by vm_compute.
Qed.

(** On [visualGraph] the children of the container lie at 1 and 2. *)
Example findMaxZ_visualGraph : getMaxZ (findMaxZ visualGraph) = 2%Q.
Proof. by vm_compute. Qed.

(** ** Alignment: further properties *)







(** ** Topology walks: what the output is *)

Section WalkReach.
Variable targets : nat → list (option nat).

Let step (n m : nat) : Prop := Some m ∈ targets n.

(** Every node a walk marks is reached from the node it was called on. *)
Lemma forEach_walk_sound fuel :
  (∀ node w w', walk targets fuel node w = Some w' →
     ∀ v, v ∈ w'.1 → v ∈ w.1 ∨ ∃ n, node = Some n ∧ rtc step n v) →
  ∀ l s s', forEach (walk targets fuel) l s = Some s' →
    ∀ v, v ∈ s'.1 → v ∈ s.1 ∨ ∃ a, Some a ∈ l ∧ rtc step a v.
Proof.
  intros Hwalk l. induction l as [|a l IH]; intros s s' H v Hv.
  - injection H as <-. by left.
  - rewrite forEach_cons in H. destruct (walk targets fuel a s) as [s1|] eqn:E; [|done].
    simpl in H. destruct (IH s1 s' H v Hv) as [Hs1|(b & Hb & Hr)].
    + destruct (Hwalk a s s1 E v Hs1) as [?|(n & -> & Hr)]; [by left|].
      right. exists n. split; [by left|done].
    + right. exists b. split; [by right|done].
Qed.

Lemma walk_sound fuel node w w' :
  walk targets fuel node w = Some w' →
  ∀ v, v ∈ w'.1 → v ∈ w.1 ∨ ∃ n, node = Some n ∧ rtc step n v.
Proof.
  revert node w w'. induction fuel as [|fuel IH]; intros node w w' H v Hv; [done|].
  simpl in H. destruct node as [n|]; [|injection H as <-; by left].
  case_decide; [injection H as <-; by left|].
  destruct (forEach_walk_sound fuel IH _ _ _ H v Hv) as [Hin|(a & Ha & Hr)].
  - simpl in Hin. apply elem_of_union in Hin as [->%elem_of_singleton|?]; [|by left].
    right. eexists. split; [done|]. apply rtc_refl.
  - right. exists n. split; [done|]. eapply rtc_l; [exact Ha|done].
Qed.

(** A set that holds the start nodes and is closed under the targets
    holds everything the start nodes reach. *)
Lemma closed_reach (out : list nat) (l : list (option nat)) :
  (∀ m, Some m ∈ l → m ∈ out) →
  (∀ n m, n ∈ out → Some m ∈ targets n → m ∈ out) →
  ∀ a m, Some a ∈ l → rtc step a m → m ∈ out.
Proof.
  intros Hstart Hclosed a m Ha Hr. apply Hstart in Ha.
  induction Hr as [|a b c Hab _ IH]; [done|]. apply IH. by eapply Hclosed.
Qed.
End WalkReach.

(** The loop of a public function over its start pointers returns
    exactly the nodes they reach, each once. *)
Lemma forEach_walk_exact (targets : nat → list (option nat)) (g : Graph)
    (l : list (option nat)) :
  (∀ n m, Some m ∈ targets n → m ∈ dom (nodes g)) →
  (∀ m, Some m ∈ l → m ∈ dom (nodes g)) →
  ∃ w' : Walk,
    (∀ fuel, (walkFuel g ≤ fuel)%nat → forEach (walk targets fuel) l (∅, []) = Some w')
    ∧ NoDup w'.2
    ∧ (∀ m, m ∈ w'.2 ↔ ∃ a, Some a ∈ l ∧ rtc (λ n m, Some m ∈ targets n) a m).
Proof.
  intros Htargets Hl.
  destruct (forEach_walk_top targets g l Htargets Hl)
    as (w' & Hfuel & Hnodup & Hiff & Hstart & Hclosed).
  exists w'. split; [done|]. split; [done|]. intros m. split.
  - intros Hm%Hiff.
    destruct (forEach_walk_sound targets _ (walk_sound targets (walkFuel g)) _ _ _
                (Hfuel _ (Nat.le_refl _)) m Hm) as [Hin|?]; [|done].
    simpl in Hin. set_solver.
  - intros (a & Ha & Hr). by eapply closed_reach.
Qed.

Lemma descendantStep_targets g collectGroup n m :
  Some m ∈ descendantTargets g collectGroup n ↔ descendantStep g collectGroup n m.
Proof.
  unfold descendantTargets, descendantStep. destruct (nodes g !! n) as [obj|].
  2: { split; [by intros ?%elem_of_nil|by intros (? & ? & _)]. }
  rewrite elem_of_app, !elem_of_lock_fmap. split.
  - intros [H|[H ?]].
    + destruct collectGroup, (isGroup obj) eqn:Eg; simpl in H;
        try by apply elem_of_nil in H.
      apply elem_of_lock_fmap in H as [? ?]. exists obj. naive_solver.
    + exists obj. naive_solver.
  - intros (obj' & [= <-] & Hlive & [?|(-> & Hg & ?)]).
    + by right.
    + left. rewrite Hg. simpl. by apply elem_of_lock_fmap.
Qed.

Lemma ancestorStartStep_targets g collectGroup n m :
  Some m ∈ ancestorStartTargets g collectGroup n ↔ ancestorStartStep g collectGroup n m.
Proof.
  unfold ancestorStartTargets, ancestorStartStep. destruct (nodes g !! n) as [obj|].
  2: { split; [by intros ?%elem_of_nil|by intros (? & ? & _)]. }
  rewrite elem_of_app, !elem_of_lock_fmap. split.
  - intros [H|[H ?]].
    + destruct collectGroup, (isGroup obj) eqn:Eg; simpl in H;
        try by apply elem_of_nil in H.
      apply elem_of_lock_fmap in H as [? ?]. exists obj. naive_solver.
    + exists obj. naive_solver.
  - intros (obj' & [= <-] & Hlive & [?|(-> & Hg & ?)]).
    + by right.
    + left. rewrite Hg. simpl. by apply elem_of_lock_fmap.
Qed.

Lemma getGroupOf_Some g n m :
  getGroupOf g n = Some m
  ↔ ∃ obj, nodes g !! n = Some obj ∧ is_Some (nodes g !! m) ∧ get_group obj = Some m.
Proof.
  unfold getGroupOf. destruct (nodes g !! n) as [obj|]; simpl.
  2: { split; [done|]. intros (? & ? & _). done. }
  destruct (get_group obj) as [gr|] eqn:Eg; simpl.
  2: { split; [done|]. intros (? & ? & _ & ?). congruence. }
  case_decide; split.
  - intros ?. exists obj. naive_solver.
  - intros (? & ? & _ & ?). congruence.
  - done.
  - intros (? & ? & ? & ?). exfalso. naive_solver.
Qed.

Lemma ancestorStep_targets g collectGroup n m :
  Some m ∈ ancestorTargets g collectGroup n ↔ ancestorStep g collectGroup n m.
Proof.
  unfold ancestorStep. rewrite <- ancestorStartStep_targets, <- getGroupOf_Some.
  unfold ancestorTargets, ancestorStartTargets.
  destruct (nodes g !! n) as [obj|] eqn:E.
  - rewrite !elem_of_app, list_elem_of_singleton. naive_solver.
  - split; [by intros ?%elem_of_nil|]. intros [?%elem_of_nil|H]; [done|].
    apply getGroupOf_Some in H as (? & ? & _). congruence.
Qed.

Lemma rtc_targets (targets : nat → list (option nat)) (R : nat → nat → Prop) :
  (∀ n m, Some m ∈ targets n ↔ R n m) →
  ∀ a m, rtc (λ n m, Some m ∈ targets n) a m ↔ rtc R a m.
Proof.
  intros H a m. split; (induction 1 as [|? ? ? ? ? ?]; [done|]);
    (eapply rtc_l; [by apply H|done]).
Qed.

Lemma tc_first_step (R : nat → nat → Prop) n m :
  tc R n m ↔ ∃ s, R n s ∧ rtc R s m.
Proof.
  split.
  - intros [? ? ?|? s ? ? ?%tc_rtc]; [eexists; split; [done|apply rtc_refl]|by exists s].
  - intros (s & ? & ?). eapply tc_rtc_r; [by apply tc_once|done].
Qed.

Lemma collectDfsRootsWalk_walk fuel g rootNodes collectGroup :
  collectDfsRootsWalk fuel g rootNodes collectGroup
  = forEach (walk (descendantTargets g collectGroup) fuel) (lock g <$> rootNodes) (∅, []).
Proof.
  unfold collectDfsRootsWalk. rewrite forEach_fmap. apply forEach_ext.
  intros a s. apply collectDfsRec_walk.
Qed.

(** X16.  [collectDfs(node, collectGroup)] returns on every graph, each
    node at most once, and its output is exactly the set of nodes that a
    path of at least one step leads to from [node], where a step follows
    an out-edge or, when members are collected, goes from a group to one
    of its members.  So the start node is in its own output exactly when
    it lies on a cycle. *)
Theorem collectDfs_reachable (g : Graph) (node : nat) (collectGroup : bool) :
  ∃ out : list nat,
    (∀ fuel, (walkFuel g ≤ fuel)%nat → collectDfs fuel g node collectGroup = Some out)
    ∧ NoDup out
    ∧ ∀ m, m ∈ out ↔ tc (descendantStep g collectGroup) node m.
Proof.
  destruct (forEach_walk_exact (descendantTargets g collectGroup) g
              (descendantTargets g collectGroup node))
    as ([marks out] & Hfuel & Hnodup & Hiff).
  { intros n m. apply descendantTargets_dom. }
  { intros m. apply descendantTargets_dom. }
  exists out. split; [|split; [done|]].
  - intros fuel Hle. unfold collectDfs. by rewrite collectDfsWalk_walk, (Hfuel fuel Hle).
  - intros m. rewrite Hiff, tc_first_step. simpl.
    by setoid_rewrite (rtc_targets _ _ (descendantStep_targets g collectGroup));
      setoid_rewrite descendantStep_targets.
Qed.

(** X17.  [collectDfs(collectGroup)], the walk from the root nodes, returns
    on every graph, each node at most once, and its output is exactly the
    set of nodes reached from a live root by zero or more steps; a root
    that is gone contributes nothing. *)
Theorem collectDfsRoots_reachable (g : Graph) (rootNodes : list nat) (collectGroup : bool) :
  ∃ out : list nat,
    (∀ fuel, (walkFuel g ≤ fuel)%nat →
       collectDfsRoots fuel g rootNodes collectGroup = Some out)
    ∧ NoDup out
    ∧ ∀ m, m ∈ out ↔ ∃ r, r ∈ rootNodes ∧ is_Some (nodes g !! r)
                          ∧ rtc (descendantStep g collectGroup) r m.
Proof.
  destruct (forEach_walk_exact (descendantTargets g collectGroup) g (lock g <$> rootNodes))
    as ([marks out] & Hfuel & Hnodup & Hiff).
  { intros n m. apply descendantTargets_dom. }
  { intros m [_ ?]%elem_of_lock_fmap. by apply elem_of_dom. }
  exists out. split; [|split; [done|]].
  - intros fuel Hle. unfold collectDfsRoots.
    by rewrite collectDfsRootsWalk_walk, (Hfuel fuel Hle).
  - intros m. rewrite Hiff. simpl.
    setoid_rewrite (rtc_targets _ _ (descendantStep_targets g collectGroup)).
    setoid_rewrite elem_of_lock_fmap. naive_solver.
Qed.

(** X18.  [collectAncestorsDfs(node, collectGroup)] returns on every graph,
    each node at most once, and its output is exactly the set of nodes
    reached from [node] by a first step along an in-edge (or to a member,
    when members are collected) followed by zero or more steps that may
    also go to the owning group. *)
Theorem collectAncestorsDfs_reachable (g : Graph) (node : nat) (collectGroup : bool) :
  ∃ out : list nat,
    (∀ fuel, (walkFuel g ≤ fuel)%nat →
       collectAncestorsDfs fuel g node collectGroup = Some out)
    ∧ NoDup out
    ∧ ∀ m, m ∈ out ↔ ∃ s, ancestorStartStep g collectGroup node s
                          ∧ rtc (ancestorStep g collectGroup) s m.
Proof.
  destruct (forEach_walk_exact (ancestorTargets g collectGroup) g
              (ancestorStartTargets g collectGroup node))
    as ([marks out] & Hfuel & Hnodup & Hiff).
  { intros n m. apply ancestorTargets_dom. }
  { intros m (obj & _ & ?%elem_of_dom & _)%ancestorStartStep_targets. done. }
  exists out. split; [|split; [done|]].
  - intros fuel Hle. unfold collectAncestorsDfs.
    by rewrite collectAncestorsDfsWalk_walk, (Hfuel fuel Hle).
  - intros m. rewrite Hiff. simpl.
    by setoid_rewrite (rtc_targets _ _ (ancestorStep_targets g collectGroup));
      setoid_rewrite ancestorStartStep_targets.
Qed.



(** The walks of [nestedGraph]: downwards from group 3 with and without
    members, from the roots 3 and 9, of which 9 is gone, and upwards from
    group 4 with members. *)
Example collect_nestedGraph :
  collectDfs (walkFuel nestedGraph) nestedGraph 3 true = Some [1%nat; 4%nat; 2%nat]
  ∧ collectDfs (walkFuel nestedGraph) nestedGraph 3 false = Some []
  ∧ collectDfsRoots (walkFuel nestedGraph) nestedGraph [3%nat; 9%nat] true
    = Some [3%nat; 1%nat; 4%nat; 2%nat]
  ∧ collectRootNodes nestedGraph [3%nat; 9%nat] = [Some 3%nat; None]
  ∧ collectAncestorsDfs (walkFuel nestedGraph) nestedGraph 4 true
    = Some [2%nat; 4%nat; 3%nat; 1%nat].
Proof. repeat split; by vm_compute. Qed.

(** ** Ungrouping *)


Section Ungrouping.
Context `{ungroup : ungroup_t}.

(** X6.  [ungroupNode] refuses a null node, a node that is in no group,
    and a group other than the one the node is in: it returns false and
    the graph is as it was, whatever the base class would do. *)
Theorem ungroupNode_rejects (node group : option nat) (transform : bool) (g : Graph) :
  node = None
  ∨ (∃ n, node = Some n ∧ getGroupOf g n = None)
  ∨ (∃ n gr, node = Some n ∧ group = Some gr ∧ getGroupOf g n ≠ Some gr) →
  ungroupNode node group transform g = (false, g).
Proof.
  unfold ungroupNode. intros [->|[(n & -> & Hn)|(n & gr & -> & -> & Hne)]]; [done| |].
  - rewrite Hn. case_bool_decide; [done|]. case_bool_decide; done.
  - case_bool_decide; [done|]. rewrite bool_decide_true; [done|].
    split; [done|]. congruence.
Qed.

End Ungrouping.

Lemma ungroupNode_rejects_witness :
  @ungroupNode spec_ungroup (Some 1%nat) None true visualGraph = (false, visualGraph)
  ∧ @ungroupNode spec_ungroup (Some 2%nat) (Some 1%nat) true visualGraph
    = (false, visualGraph).
Proof.
  split.
  - apply (@ungroupNode_rejects spec_ungroup). right. left. exists 1%nat.
    split; reflexivity.
  - apply (@ungroupNode_rejects spec_ungroup). right. right. exists 2%nat, 1%nat.
    repeat split. vm_compute. discriminate.
Defined.


(** Node 2 of [visualGraph] leaves group 3: it is in no group any more,
    the group has no member left, the item of the node is a child of the
    container and has the new top z. *)
Example ungroupNode_success :
  let r := @ungroupNode spec_ungroup (Some 2%nat) None true visualGraph in
  r.1 = true
  ∧ getGroupOf r.2 2 = None
  ∧ get_nodes <$> nodes r.2 !! 3%nat = Some []
  ∧ parentItem <$> items r.2 !! 12%nat = Some (Some 100%nat)
  ∧ zOf r.2 12 = Some 4%Q ∧ getMaxZ r.2 = 4%Q.
Proof. cbv zeta. repeat split; by vm_compute. Qed.

(** Grouping node 1 into group 3 and ungrouping it again: the node is in
    no group, its edges are as before and the group has its old members. *)
Example groupNode_ungroupNode_round_trip :
  let r := @groupNode spec_gtpo spec_groupItems (Some 3%nat) (Some 1%nat) true visualGraph in
  let r' := @ungroupNode spec_ungroup (Some 1%nat) None true r.2 in
  r.1 = true ∧ r'.1 = true
  ∧ getGroupOf r'.2 1 = getGroupOf visualGraph 1
  ∧ (get_in_nodes <$> nodes r'.2 !! 1%nat) = (get_in_nodes <$> nodes visualGraph !! 1%nat)
  ∧ (get_out_nodes <$> nodes r'.2 !! 1%nat) = (get_out_nodes <$> nodes visualGraph !! 1%nat)
  ∧ (get_nodes <$> nodes r'.2 !! 3%nat) = (get_nodes <$> nodes visualGraph !! 3%nat).
Proof. cbv zeta. repeat split; by vm_compute. Qed.

(** ** Removal of a node *)

Section NodeRemoval.
Context `{gtpo : gtpo_graph_t}.

End NodeRemoval.

(** Selecting node 1 of [visualGraph], then removing it: the node is no
    longer selected and is gone from the store. *)
Example removeNode_selected_node :
  let g1 := (selectNode 1 0 visualGraph).2 in
  let r := @removeNode spec_gtpo (Some 1%nat) g1 in
  getSelectedNodes g1 = [1%nat]
  ∧ r.1 = None ∧ getSelectedNodes r.2 = [] ∧ nodes r.2 !! 1%nat = None.
Proof. cbv zeta. repeat split; by vm_compute. Qed.

(** ** Binding edges to ports *)

Lemma bindEdgeSource_ref_ports e p s q :
  portItems (bindEdgeSource_ref e p s) !! q
  = match mjoin (edgeGetItem s !! e), portItems s !! p with
    | Some edgeItem, Some port =>
        if isEdgeSourceBindable port && bool_decide (q = p)
        then Some (appendOutEdgeItem edgeItem port)
        else portItems s !! q
    | _, _ => portItems s !! q
    end.
Proof.
  unfold bindEdgeSource_ref. destruct (mjoin _) as [edgeItem|]; [|done].
  destruct (portItems s !! p) as [port|] eqn:E; [|done].
  destruct (isEdgeSourceBindable port); [|done]. simpl.
  case_bool_decide; [subst; by rewrite lookup_alter_eq, E|by rewrite lookup_alter_ne].
Qed.

Lemma bindEdgeDestination_ref_ports e p s q :
  portItems (bindEdgeDestination_ref e p s) !! q
  = match mjoin (edgeGetItem s !! e), portItems s !! p with
    | Some edgeItem, Some port =>
        if isEdgeDestinationBindable port && bool_decide (q = p)
        then Some (appendInEdgeItem edgeItem port)
        else portItems s !! q
    | _, _ => portItems s !! q
    end.
Proof.
  unfold bindEdgeDestination_ref. destruct (mjoin _) as [edgeItem|]; [|done].
  destruct (portItems s !! p) as [port|] eqn:E; [|done].
  destruct (isEdgeDestinationBindable port); [|done]. simpl.
  case_bool_decide; [subst; by rewrite lookup_alter_eq, E|by rewrite lookup_alter_ne].
Qed.

Lemma bindEdgeSource_edges e p s : edgeGetItem (bindEdgeSource e p s) = edgeGetItem s.
Proof.
  unfold bindEdgeSource, bindEdgeSource_ref. destruct e as [e|], p as [p|]; try done.
  destruct (mjoin _); [|done]. destruct (portItems s !! p) as [port|]; [|done].
  by destruct (isEdgeSourceBindable port).
Qed.

Lemma bindEdgeDestination_edges e p s :
  edgeGetItem (bindEdgeDestination e p s) = edgeGetItem s.
Proof.
  unfold bindEdgeDestination, bindEdgeDestination_ref. destruct e as [e|], p as [p|]; try done.
  destruct (mjoin _); [|done]. destruct (portItems s !! p) as [port|]; [|done].
  by destruct (isEdgeDestinationBindable port).
Qed.

Lemma bindEdgeSource_single e p s :
  singlePortsBound s → singlePortsBound (bindEdgeSource e p s).
Proof.
  intros Hs q port. destruct e as [e|], p as [p|]; try apply Hs. simpl.
  rewrite bindEdgeSource_ref_ports.
  destruct (mjoin _) as [edgeItem|]; [|apply Hs].
  destruct (portItems s !! p) as [port0|] eqn:E; [|apply Hs].
  destruct (isEdgeSourceBindable port0) eqn:Eb; [|apply Hs]. simpl.
  case_bool_decide; [|apply Hs]. intros [= <-]. simpl. intros Hm.
  destruct (Hs p port0 E Hm) as [_ Hin]. split; [|done].
  unfold isEdgeSourceBindable in Eb. rewrite Hm in Eb.
  destruct (getType port0); try done;
    apply Nat.eqb_eq in Eb; rewrite length_app, Eb; simpl; lia.
Qed.

Lemma bindEdgeDestination_single e p s :
  singlePortsBound s → singlePortsBound (bindEdgeDestination e p s).
Proof.
  intros Hs q port. destruct e as [e|], p as [p|]; try apply Hs. simpl.
  rewrite bindEdgeDestination_ref_ports.
  destruct (mjoin _) as [edgeItem|]; [|apply Hs].
  destruct (portItems s !! p) as [port0|] eqn:E; [|apply Hs].
  destruct (isEdgeDestinationBindable port0) eqn:Eb; [|apply Hs]. simpl.
  case_bool_decide; [|apply Hs]. intros [= <-]. simpl. intros Hm.
  destruct (Hs p port0 E Hm) as [Hout _]. split; [done|].
  unfold isEdgeDestinationBindable in Eb. rewrite Hm in Eb.
  destruct (getType port0); try done;
    apply Nat.eqb_eq in Eb; rewrite length_app, Eb; simpl; lia.
Qed.

(** X20.  The binding functions keep the ports of multiplicity [Single]
    at no more than one edge on each side: if that holds before
    [bindEdgeSource], [bindEdgeDestination] or [bindEdge], it holds
    after, for every edge and every pair of ports (null pointers, an
    edge without item and one port given for both ends included). *)
Theorem bindEdge_keeps_single_ports (edge outPort inPort : option nat) (s : Scene) :
  singlePortsBound s →
  singlePortsBound (bindEdgeSource edge outPort s)
  ∧ singlePortsBound (bindEdgeDestination edge inPort s)
  ∧ singlePortsBound (bindEdge edge outPort inPort s).
Proof.
  intros Hs. split; [by apply bindEdgeSource_single|].
  split; [by apply bindEdgeDestination_single|].
  unfold bindEdge. by apply bindEdgeSource_single, bindEdgeDestination_single.
Qed.

Lemma bindEdge_keeps_single_ports_witness :
  singlePortsBound (bindEdge (Some 6%nat) (Some 1%nat) (Some 2%nat)
                      (bindEdge (Some 5%nat) (Some 1%nat) (Some 2%nat) portScene)).
Proof.
  apply (bindEdge_keeps_single_ports (Some 6%nat) (Some 1%nat) (Some 2%nat)).
  apply (bindEdge_keeps_single_ports (Some 5%nat) (Some 1%nat) (Some 2%nat)).
  intros p port Hp _.
  assert (getOutEdgeItems port = [] ∧ getInEdgeItems port = []) as [-> ->]; [|simpl; lia].
  unfold portScene in Hp. simpl in Hp.
  destruct (decide (p = 1%nat)) as [->|]; [by simplify_map_eq|].
  destruct (decide (p = 2%nat)) as [->|]; by simplify_map_eq.
Defined.

(** X21.  A port of multiplicity [Single] is bound once: after
    [bindEdgeSource] of an edge that has an item, a further
    [bindEdgeSource] on the same port, of any edge, changes nothing. *)
Theorem bindEdgeSource_single_port_binds_once (e1 : nat) (e2 : option nat) (p : nat)
    (port : PortItem) (edgeItem : nat) (s : Scene) :
  portItems s !! p = Some port → getMultiplicity port = Single →
  edgeGetItem s !! e1 = Some (Some edgeItem) →
  bindEdgeSource e2 (Some p) (bindEdgeSource (Some e1) (Some p) s)
  = bindEdgeSource (Some e1) (Some p) s.
Proof.
  intros Hp Hm He. set (s1 := bindEdgeSource (Some e1) (Some p) s).
  destruct e2 as [e2|]; [|done]. simpl. unfold bindEdgeSource_ref at 1.
  destruct (mjoin (edgeGetItem s1 !! e2)); [|done].
  assert (∃ port1, portItems s1 !! p = Some port1 ∧ isEdgeSourceBindable port1 = false)
    as (port1 & -> & ->); [|done].
  subst s1. simpl. rewrite bindEdgeSource_ref_ports, He, Hp. simpl.
  rewrite bool_decide_true by done. rewrite andb_true_r.
  destruct (isEdgeSourceBindable port) eqn:Eb.
  - eexists. split; [done|]. unfold isEdgeSourceBindable in *. simpl. rewrite Hm.
    destruct (getType port); [done| |]; rewrite length_app; simpl;
      apply Nat.eqb_neq; lia.
  - by exists port.
Qed.

Lemma bindEdgeSource_single_port_binds_once_witness :
  bindEdgeSource (Some 6%nat) (Some 1%nat) (bindEdgeSource (Some 5%nat) (Some 1%nat) portScene)
  = bindEdgeSource (Some 5%nat) (Some 1%nat) portScene.
Proof.
  apply (bindEdgeSource_single_port_binds_once 5 (Some 6%nat) 1
           (mkPortItem Type_Out Single [] []) 15 portScene); reflexivity.
Defined.

(** X22.  Binding the source of an edge to a second port does not unbind
    it from the first: the edge item names the second port as its
    source, and it is listed among the out edges of both ports. *)
Theorem bindEdgeSource_rebinding_keeps_first_port (e p q edgeItem : nat)
    (portP portQ : PortItem) (s : Scene) :
  p ≠ q →
  edgeGetItem s !! e = Some (Some edgeItem) →
  portItems s !! p = Some portP → isEdgeSourceBindable portP = true →
  portItems s !! q = Some portQ → isEdgeSourceBindable portQ = true →
  let s' := bindEdgeSource (Some e) (Some q) (bindEdgeSource (Some e) (Some p) s) in
  portItems s' !! p = Some (appendOutEdgeItem edgeItem portP)
  ∧ portItems s' !! q = Some (appendOutEdgeItem edgeItem portQ)
  ∧ (is_Some (edgeItems s !! edgeItem) →
     getSourceItem <$> edgeItems s' !! edgeItem = Some (Some q)).
Proof.
  intros Hne He Hp Hbp Hq Hbq s'.
  assert (portItems (bindEdgeSource_ref e p s) !! q = Some portQ) as Hq1.
  { rewrite bindEdgeSource_ref_ports, He, Hp. simpl.
    rewrite bool_decide_false by done. by rewrite andb_false_r. }
  assert (edgeGetItem (bindEdgeSource_ref e p s) !! e = Some (Some edgeItem)) as He1
    by (by rewrite <- (bindEdgeSource_edges (Some e) (Some p) s) in He).
  subst s'. simpl. split; [|split].
  - rewrite bindEdgeSource_ref_ports, He1, Hq1. simpl.
    rewrite bool_decide_false by done. rewrite andb_false_r.
    rewrite bindEdgeSource_ref_ports, He, Hp. simpl.
    by rewrite bool_decide_true, Hbp by done.
  - rewrite bindEdgeSource_ref_ports, He1, Hq1. simpl.
    by rewrite bool_decide_true, Hbq by done.
  - intros [ei Hei]. unfold bindEdgeSource_ref at 1. rewrite He1. simpl. rewrite Hq1, Hbq.
    simpl. rewrite lookup_alter_eq.
    unfold bindEdgeSource_ref. rewrite He. simpl. rewrite Hp, Hbp. simpl.
    by rewrite lookup_alter_eq, Hei.
Qed.

Lemma bindEdgeSource_rebinding_keeps_first_port_witness :
  let s' := bindEdgeSource (Some 5%nat) (Some 2%nat)
              (bindEdgeSource (Some 5%nat) (Some 1%nat) portScene) in
  portItems s' !! 1%nat = Some (mkPortItem Type_Out Single [] [15%nat])
  ∧ portItems s' !! 2%nat = Some (mkPortItem Type_InOut Multiple [] [15%nat])
  ∧ (is_Some (edgeItems portScene !! 15%nat) →
     getSourceItem <$> edgeItems s' !! 15%nat = Some (Some 2%nat)).
Proof.
  apply (bindEdgeSource_rebinding_keeps_first_port 5 1 2 15
           (mkPortItem Type_Out Single [] []) (mkPortItem Type_InOut Multiple [] [])
           portScene); (reflexivity || lia).
Defined.
